(** * Maze search: node expansion engine and search strategies

    A shallow embedding of the maze-search program and the properties proved
    about it.  Two modules of the program are embedded: the agent module
    ([probeCoordinates], [getInitialNode] and their checks) and the
    search-functions module in the version that the command-line program
    calls with an [allGoals] flag: six strategies whose paths leave out the
    root, [findSolution], and the multi-goal [searchAllGoals].

    Numbers are JavaScript integers, modelled as [Z].  Arrays are lists in
    array order, objects are records.  A [while] loop is a function that
    recurses on a number of iterations it may still run; the strategies are
    given one iteration per cell of the maze and two more, and are proved
    below never to need more. *)

From Stdlib Require Import String ZArith List Bool Lia Arith Permutation Sorted.
Import ListNotations.
Open Scope string_scope.
Open Scope list_scope.
Open Scope Z_scope.

Set Implicit Arguments.

(** ** Data model *)

Record Coordinate : Type := mkCoordinate { x : Z; y : Z }.

Record MazeSize : Type := mkMazeSize { rows : Z; columns : Z }.

(** A wall [{x, y, columns, rows}]; the fields carry a prefix because the
    names are already taken by [Coordinate] and [MazeSize]. *)
Record Wall : Type := mkWall {
  wall_x : Z; wall_y : Z; wall_columns : Z; wall_rows : Z }.

Record Problem : Type := mkProblem {
  mazeSize : MazeSize;
  agentLocation : Coordinate;
  goals : list Coordinate;
  walls : list Wall }.

Record HeuristicCost : Type := mkCost {
  fromCurrentNode : Z;
  fromStartingNode : Z;
  nodesTravelled : Z }.

(** A search node carries its whole ancestor path. *)
#[warnings="-register-all"]
Inductive SearchNode : Type := mkNode {
  direction : string;
  coordinates : Coordinate;
  isGoal : bool;
  previousCoordinates : list SearchNode;
  distanceToGoal : HeuristicCost;
  depth : Z }.

(** ** Library functions used by the source *)

Module Lodash.

(** [_.inRange(n, start, end)]: [start <= n < end], the two bounds being
    swapped when [start > end]. *)
Definition inRange (n start end_ : Z) : bool :=
  (Z.min start end_ <=? n) && (n <? Z.max start end_).

(** [_.tail(array)]: all but the first element. *)
Definition tail {A : Type} (l : list A) : list A :=
  match l with [] => [] | _ :: t => t end.

(** [array[array.length - 1]]: the last element, [undefined] on []. *)
Fixpoint lastElement {A : Type} (l : list A) : option A :=
  match l with
  | [] => None
  | [a] => Some a
  | _ :: t => lastElement t
  end.

(** [_.get(object, path, default)] on a possibly undefined object. *)
Definition get {A B : Type} (o : option A) (field : A -> B) (default : B) : B :=
  match o with Some a => field a | None => default end.

End Lodash.

(** ** The agent module: node expansion engine *)

Definition checkGoal (searchLocation goal : Coordinate) : bool :=
  (x goal =? x searchLocation) && (y goal =? y searchLocation).

Definition checkWall (searchLocation : Coordinate) (walls : list Wall) : bool :=
  existsb
    (fun w =>
       Lodash.inRange (x searchLocation) (wall_x w) (wall_x w + wall_columns w)
       && Lodash.inRange (y searchLocation) (wall_y w) (wall_y w + wall_rows w))
    walls.

Definition checkOutOfBounds (searchLocation : Coordinate) (mazeSize : MazeSize)
  : bool :=
  (x searchLocation <? 0)
  || (x searchLocation >=? columns mazeSize)
  || (y searchLocation <? 0)
  || (y searchLocation >=? rows mazeSize).

Definition checkBacktrack (searchLocation : Coordinate)
           (searchTree : list SearchNode) : bool :=
  existsb
    (fun p =>
       (x (coordinates p) =? x searchLocation)
       && (y (coordinates p) =? y searchLocation))
    searchTree.

Definition calculateManhattan (searchLocation : Coordinate)
           (previousCoordinates : list SearchNode) (goal : Coordinate)
  : HeuristicCost :=
  let nodesTravelled := Z.of_nat (length previousCoordinates) in
  let distance :=
    Z.abs (y goal - y searchLocation) + Z.abs (x goal - x searchLocation) in
  let currentDistance :=
    Lodash.get (Lodash.lastElement previousCoordinates)
               (fun p => fromStartingNode (distanceToGoal p)) 0 in
  {| fromCurrentNode := distance;
     fromStartingNode := currentDistance + distance;
     nodesTravelled := nodesTravelled |}.

Definition directionString : list string :=
  ["up; "; "left; "; "down; "; "right; "].

Definition searchLocations (currentLocation : Coordinate) : list Coordinate :=
  [ {| x := x currentLocation;     y := y currentLocation - 1 |};
    {| x := x currentLocation - 1; y := y currentLocation |};
    {| x := x currentLocation;     y := y currentLocation + 1 |};
    {| x := x currentLocation + 1; y := y currentLocation |} ].

(** The unfiltered candidates ([searchSpace] in the source). *)
Definition searchSpace (currentLocation : Coordinate) (path : list SearchNode)
           (goal : Coordinate) : list SearchNode :=
  map (fun dc : string * Coordinate =>
         let (dir, coordinates) := dc in
         {| direction := dir;
            coordinates := coordinates;
            isGoal := checkGoal coordinates goal;
            previousCoordinates := path;
            distanceToGoal := calculateManhattan coordinates path goal;
            depth := Lodash.get (Lodash.lastElement path) depth 0 + 1 |})
      (combine directionString (searchLocations currentLocation)).

Definition probeCoordinates (currentLocation : Coordinate)
           (path : list SearchNode) (mazeSize : MazeSize) (goal : Coordinate)
           (walls : list Wall) (searchTree : list SearchNode)
  : list SearchNode :=
  filter
    (fun node =>
       negb (checkWall (coordinates node) walls
             || checkOutOfBounds (coordinates node) mazeSize
             || checkBacktrack (coordinates node) searchTree))
    (searchSpace currentLocation path goal).

Definition getInitialNode (agentLocation goal : Coordinate) : SearchNode :=
  {| direction := "start; ";
     coordinates := agentLocation;
     isGoal := false;
     previousCoordinates := [];
     distanceToGoal := calculateManhattan agentLocation [] goal;
     depth := 0 |}.

(** ** The search-functions module *)

Inductive Status : Type := found | fail.

(** An entry of a solution path: the five single-frontier strategies return
    the search nodes themselves, the bidirectional strategy returns fresh
    objects that hold a direction label and nothing else. *)
Inductive PathEntry : Type :=
| treeNode (node : SearchNode)
| labelOnly (direction : string).

Definition entryDirection (e : PathEntry) : string :=
  match e with
  | treeNode node => direction node
  | labelOnly d => d
  end.

Record Solution : Type := mkSolution {
  status : Status;
  path : list PathEntry;
  searchTree : list SearchNode }.

(** What a call produces: a solution, some other value (not a solution), a
    [TypeError], or, for the loops below, no answer within the given number
    of iterations. *)
Inductive Outcome (A : Type) : Type :=
| Returns (a : A)
| ReturnsOther
| Throws
| OutOfFuel.

Arguments Returns {A} a.
Arguments ReturnsOther {A}.
Arguments Throws {A}.
Arguments OutOfFuel {A}.

Module JsArray.

(** [array.pop()]: the last element and the array without it. *)
Definition pop {A : Type} (l : list A) : option (A * list A) :=
  match rev l with
  | [] => None
  | a :: r => Some (a, rev r)
  end.

(** [array.shift()]: the first element and the array without it. *)
Definition shift {A : Type} (l : list A) : option (A * list A) :=
  match l with
  | [] => None
  | a :: t => Some (a, t)
  end.

(** [array.sort(compare)]: the sort is stable; [a] stays in front of a later
    [b] unless [compare a b > 0]. *)
Fixpoint insertSorted {A : Type} (compare : A -> A -> Z) (a : A) (l : list A)
  : list A :=
  match l with
  | [] => [a]
  | b :: t => if compare a b <=? 0 then a :: l else b :: insertSorted compare a t
  end.

Definition sort {A : Type} (compare : A -> A -> Z) (l : list A) : list A :=
  fold_right (insertSorted compare) [] l.

End JsArray.

(** Number of loop iterations granted to a search on a maze: one per cell,
    one for the root and one to see the empty frontier.  [searchFuel_enough]
    below shows that no search needs more. *)
Definition searchFuel (mazeSize : MazeSize) : nat :=
  S (S (Z.to_nat (columns mazeSize) * Z.to_nat (rows mazeSize))).

Section Strategies.

Variable mazeSize_ : MazeSize.
Variable walls_ : list Wall.
Variable goal : Coordinate.

Fixpoint dfs_loop (fuel : nat) (frontier searchTree : list SearchNode)
  : Outcome Solution :=
  match fuel with
  | O => OutOfFuel
  | S fuel =>
    match JsArray.pop frontier with
    | None => Returns {| status := fail; path := []; searchTree := searchTree |}
    | Some (searchLocation, frontier) =>
      let path := previousCoordinates searchLocation ++ [searchLocation] in
      if isGoal searchLocation then
        Returns {| status := found;
                   path := map treeNode (Lodash.tail path);
                   searchTree := searchTree |}
      else
        let candidates :=
          rev (probeCoordinates (coordinates searchLocation) path mazeSize_
                                goal walls_ searchTree) in
        dfs_loop fuel (frontier ++ candidates) (searchTree ++ candidates)
    end
  end.

Fixpoint bfs_loop (fuel : nat) (frontier searchTree : list SearchNode)
  : Outcome Solution :=
  match fuel with
  | O => OutOfFuel
  | S fuel =>
    match frontier with
    | [] => Returns {| status := fail; path := []; searchTree := searchTree |}
    | searchLocation :: _ =>
      let path := previousCoordinates searchLocation ++ [searchLocation] in
      if isGoal searchLocation then
        Returns {| status := found;
                   path := map treeNode (Lodash.tail path);
                   searchTree := searchTree |}
      else
        let candidates :=
          probeCoordinates (coordinates searchLocation) path mazeSize_
                           goal walls_ searchTree in
        bfs_loop fuel (Lodash.tail (frontier ++ candidates))
                 (searchTree ++ candidates)
    end
  end.

Fixpoint gbfs_loop (fuel : nat) (frontier searchTree : list SearchNode)
  : Outcome Solution :=
  match fuel with
  | O => OutOfFuel
  | S fuel =>
    match JsArray.shift frontier with
    | None => Returns {| status := fail; path := []; searchTree := searchTree |}
    | Some (searchLocation, frontier) =>
      let path := previousCoordinates searchLocation ++ [searchLocation] in
      if isGoal searchLocation then
        Returns {| status := found;
                   path := map treeNode (Lodash.tail path);
                   searchTree := searchTree |}
      else
        let candidates :=
          probeCoordinates (coordinates searchLocation) path mazeSize_
                           goal walls_ searchTree in
        gbfs_loop fuel
          (JsArray.sort
             (fun a b => fromCurrentNode (distanceToGoal a)
                         - fromCurrentNode (distanceToGoal b))
             (frontier ++ candidates))
          (searchTree ++ candidates)
    end
  end.

Fixpoint aStar_loop (fuel : nat) (frontier searchTree : list SearchNode)
  : Outcome Solution :=
  match fuel with
  | O => OutOfFuel
  | S fuel =>
    match JsArray.shift frontier with
    | None => Returns {| status := fail; path := []; searchTree := searchTree |}
    | Some (searchLocation, frontier) =>
      let path := previousCoordinates searchLocation ++ [searchLocation] in
      if isGoal searchLocation then
        Returns {| status := found;
                   path := map treeNode (Lodash.tail path);
                   searchTree := searchTree |}
      else
        let candidates :=
          probeCoordinates (coordinates searchLocation) path mazeSize_
                           goal walls_ searchTree in
        aStar_loop fuel
          (JsArray.sort
             (fun a b => fromStartingNode (distanceToGoal a)
                         - fromStartingNode (distanceToGoal b))
             (frontier ++ candidates))
          (searchTree ++ candidates)
    end
  end.

Definition depthLimit : Z := 10.

Fixpoint customOne_loop (fuel : nat) (frontier searchTree : list SearchNode)
  : Outcome Solution :=
  match fuel with
  | O => OutOfFuel
  | S fuel =>
    match JsArray.pop frontier with
    | None => Returns {| status := fail; path := []; searchTree := searchTree |}
    | Some (searchLocation, frontier) =>
      let path := previousCoordinates searchLocation ++ [searchLocation] in
      if isGoal searchLocation then
        Returns {| status := found;
                   path := map treeNode (Lodash.tail path);
                   searchTree := searchTree |}
      else
        let candidates :=
          rev (probeCoordinates (coordinates searchLocation) path mazeSize_
                                goal walls_ searchTree) in
        let searchTree := searchTree ++ candidates in
        if Lodash.get (hd_error candidates) depth 0 =? depthLimit + 1 then
          customOne_loop fuel frontier searchTree
        else
          customOne_loop fuel (frontier ++ candidates) searchTree
    end
  end.

End Strategies.

(** *** Bidirectional search *)

(** The coordinate test of the source's [some] and [find] callbacks. *)
Definition sameCoordinates (a : SearchNode) (b : SearchNode) : bool :=
  (x (coordinates b) =? x (coordinates a))
  && (y (coordinates b) =? y (coordinates a)).

(** The direction label of a stitched node, from the coordinate before it
    ([null] at index 0). *)
Definition currentDirection (previousCoordinate : option Coordinate)
           (p : SearchNode) : string :=
  match previousCoordinate with
  | None => "start; "
  | Some previousCoordinate =>
    if y previousCoordinate >? y (coordinates p) then "up; "
    else if x previousCoordinate >? x (coordinates p) then "left; "
    else if y previousCoordinate <? y (coordinates p) then "down; "
    else if x previousCoordinate <? x (coordinates p) then "right; "
    else "broken; "
  end.

(** [joinedPath.map((p, index) => ...)], the coordinate at [index - 1] being
    handed along. *)
Fixpoint finalPathFrom (previousCoordinate : option Coordinate)
         (joinedPath : list SearchNode) : list PathEntry :=
  match joinedPath with
  | [] => []
  | p :: rest =>
    labelOnly (currentDirection previousCoordinate p)
    :: finalPathFrom (Some (coordinates p)) rest
  end.

Definition finalPath (joinedPath : list SearchNode) : list PathEntry :=
  finalPathFrom None joinedPath.

(** The source reverses the backward ancestor array in place for the stitch
    ([intersectingReversePath.reverse()]).  That array is shared: it is the
    [previousCoordinates] of the backward node at the meeting cell and of the
    candidates generated together with it, so these nodes come back with
    their ancestors in reverse order, wherever they occur in the returned
    backward tree.  Arrays have no identity here; the reversed array is
    recognised by the cells of its nodes, which within one tree are the
    cells of one array only. *)
Fixpoint sameCells (a b : list SearchNode) : bool :=
  match a, b with
  | [], [] => true
  | n :: a, m :: b => sameCoordinates n m && sameCells a b
  | _, _ => false
  end.

(** A node of the backward tree as it reads after the array [reversed] has
    been reversed in place. *)
Fixpoint afterReverse (reversed : list SearchNode) (node : SearchNode)
  : SearchNode :=
  match node with
  | mkNode direction coordinates isGoal previousCoordinates distanceToGoal
           depth =>
    mkNode direction coordinates isGoal
           (if sameCells previousCoordinates reversed
            then rev previousCoordinates
            else map (afterReverse reversed) previousCoordinates)
           distanceToGoal depth
  end.

Section Bidirectional.

Variable mazeSize_ : MazeSize.
Variable walls_ : list Wall.
Variable agentLocation_ : Coordinate.
Variable goal : Coordinate.

Fixpoint customTwo_loop (fuel : nat)
         (frontier searchTree reverseFrontier reverseSearchTree
          : list SearchNode) : Outcome Solution :=
  match fuel with
  | O => OutOfFuel
  | S fuel =>
    match JsArray.shift frontier, JsArray.shift reverseFrontier with
    | Some (searchLocation, frontier),
      Some (reverseSearchLocation, reverseFrontier) =>
      let path := previousCoordinates searchLocation ++ [searchLocation] in
      let reversePath :=
        previousCoordinates reverseSearchLocation ++ [reverseSearchLocation] in
      let intersectingCoordinate :=
        if existsb (sameCoordinates searchLocation) reverseSearchTree
        then Some searchLocation
        else if existsb (sameCoordinates reverseSearchLocation) searchTree
        then Some reverseSearchLocation
        else None in
      match intersectingCoordinate with
      | Some intersectingCoordinate =>
        match find (sameCoordinates intersectingCoordinate) searchTree,
              find (sameCoordinates intersectingCoordinate) reverseSearchTree
        with
        | Some forwardNode, Some reverseNode =>
          let intersectingForwardPath := previousCoordinates forwardNode in
          let intersectingReversePath := previousCoordinates reverseNode in
          let joinedPath :=
            intersectingForwardPath
              ++ [intersectingCoordinate] ++ rev intersectingReversePath in
          Returns {| status := found;
                     path := Lodash.tail (finalPath joinedPath);
                     searchTree :=
                       searchTree
                         ++ map (afterReverse intersectingReversePath)
                                reverseSearchTree |}
        | _, _ => Throws
        end
      | None =>
        let candidates :=
          probeCoordinates (coordinates searchLocation) path mazeSize_
                           goal walls_ searchTree in
        let frontier :=
          JsArray.sort
            (fun a b => fromStartingNode (distanceToGoal a)
                        - fromStartingNode (distanceToGoal b))
            (frontier ++ candidates) in
        let reverseCandidates :=
          probeCoordinates (coordinates reverseSearchLocation) reversePath
                           mazeSize_ agentLocation_ walls_ reverseSearchTree in
        let reverseFrontier :=
          JsArray.sort
            (fun a b => fromStartingNode (distanceToGoal a)
                        - fromStartingNode (distanceToGoal b))
            (reverseFrontier ++ reverseCandidates) in
        customTwo_loop fuel frontier (searchTree ++ candidates)
                       reverseFrontier (reverseSearchTree ++ reverseCandidates)
      end
    | _, _ =>
      Returns {| status := fail; path := [];
                 searchTree := searchTree ++ reverseSearchTree |}
    end
  end.

End Bidirectional.

(** *** The six strategies *)

Definition Algorithm : Type :=
  Problem -> Coordinate -> SearchNode -> Outcome Solution.

Definition dfs : Algorithm := fun problem goal initialSearchCoordinate =>
  dfs_loop (mazeSize problem) (walls problem) goal
           (searchFuel (mazeSize problem))
           [initialSearchCoordinate] [initialSearchCoordinate].

Definition bfs : Algorithm := fun problem goal initialSearchCoordinate =>
  bfs_loop (mazeSize problem) (walls problem) goal
           (searchFuel (mazeSize problem))
           [initialSearchCoordinate] [initialSearchCoordinate].

Definition gbfs : Algorithm := fun problem goal initialSearchCoordinate =>
  gbfs_loop (mazeSize problem) (walls problem) goal
            (searchFuel (mazeSize problem))
            [initialSearchCoordinate] [initialSearchCoordinate].

Definition aStar : Algorithm := fun problem goal initialSearchCoordinate =>
  aStar_loop (mazeSize problem) (walls problem) goal
             (searchFuel (mazeSize problem))
             [initialSearchCoordinate] [initialSearchCoordinate].

Definition customOne : Algorithm := fun problem goal initialSearchCoordinate =>
  customOne_loop (mazeSize problem) (walls problem) goal
                 (searchFuel (mazeSize problem))
                 [initialSearchCoordinate] [initialSearchCoordinate].

Definition customTwo : Algorithm := fun problem goal initialSearchCoordinate =>
  let reverseInitialSearchCoordinate :=
    getInitialNode goal (agentLocation problem) in
  customTwo_loop (mazeSize problem) (walls problem) (agentLocation problem)
                 goal (searchFuel (mazeSize problem))
                 [initialSearchCoordinate] [initialSearchCoordinate]
                 [reverseInitialSearchCoordinate]
                 [reverseInitialSearchCoordinate].

(** *** Strategy selection *)

(** The own properties of the object literal [algorithmMap]. *)
Definition algorithmMap : list (string * Algorithm) :=
  [ ("DFS", dfs); ("BFS", bfs); ("GBFS", gbfs);
    ("AS", aStar); ("CUS1", customOne); ("CUS2", customTwo) ].

Fixpoint ownProperty {A : Type} (key : string) (object : list (string * A))
  : option A :=
  match object with
  | [] => None
  | (k, v) :: rest => if String.eqb key k then Some v else ownProperty key rest
  end.

(** [algorithmMap] is an ordinary object, so a property read that finds no
    own property goes on to [Object.prototype]. *)
Module ObjectPrototype.

Definition propertyNames : list string :=
  [ "constructor"; "__defineGetter__"; "__defineSetter__"; "hasOwnProperty";
    "__lookupGetter__"; "__lookupSetter__"; "isPrototypeOf";
    "propertyIsEnumerable"; "toString"; "valueOf"; "__proto__";
    "toLocaleString" ].

Definition has (key : string) : bool :=
  existsb (String.eqb key) propertyNames.

(** Calling the inherited property as a plain function on
    [(problem, goal, initialSearchCoordinate)]: [toString] answers the string
    for an undefined receiver and [constructor] hands back its first
    argument; [__proto__] is not callable and the others reject the
    undefined receiver. *)
Definition call (key : string) : Outcome Solution :=
  if String.eqb key "toString" || String.eqb key "constructor"
  then ReturnsOther
  else Throws.

End ObjectPrototype.

(** The value of [algorithmMap[method]]. *)
Inductive Property : Type :=
| searchAlgorithm (algorithm : Algorithm)
| inherited (key : string)
| undefined.

Definition selectAlgorithm (method : string) : Property :=
  match ownProperty method algorithmMap with
  | Some algorithm => searchAlgorithm algorithm
  | None => if ObjectPrototype.has method then inherited method else undefined
  end.

Definition findSolution (problem : Problem) (startNode goal : Coordinate)
           (searchMethod : string) : Outcome Solution :=
  let initialSearchCoordinate := getInitialNode startNode goal in
  match selectAlgorithm searchMethod with
  | searchAlgorithm algorithm => algorithm problem goal initialSearchCoordinate
  | inherited key => ObjectPrototype.call key
  | undefined => Throws
  end.

(** *** Multi-goal orchestrator *)

(** A goal object of the cloned goal list; [goalId] stands for the identity
    of the object, which is what [!==] compares. *)
Record GoalObject : Type := mkGoalObject {
  goalId : nat;
  goalCoordinate : Coordinate }.

Definition cloneDeep (goals : list Coordinate) : list GoalObject :=
  map (fun ig : nat * Coordinate => mkGoalObject (fst ig) (snd ig))
      (combine (seq 0 (length goals)) goals).

(** An entry [{goal, solution}] of the mapped goal list; the fields carry an
    underscore because [goal] and [solution] name the loop's variables. *)
Record GoalSolution : Type := mkGoalSolution {
  goal_ : GoalObject;
  solution_ : Solution }.

(** [goalList.map(goal => {goal, solution: findSolution(...)})]; a value
    that is not a solution has neither a [path] to sort by nor a
    [searchTree] to spread, so the run ends in a [TypeError]. *)
Fixpoint mapFindSolution (problem : Problem) (startNode : Coordinate)
         (searchMethod : string) (goalList : list GoalObject)
  : Outcome (list GoalSolution) :=
  match goalList with
  | [] => Returns []
  | goal :: rest =>
    match findSolution problem startNode (goalCoordinate goal) searchMethod with
    | Returns solution =>
      match mapFindSolution problem startNode searchMethod rest with
      | Returns solutions => Returns (mkGoalSolution goal solution :: solutions)
      | ReturnsOther => Throws
      | Throws => Throws
      | OutOfFuel => OutOfFuel
      end
    | ReturnsOther => Throws
    | Throws => Throws
    | OutOfFuel => OutOfFuel
    end
  end.

(** The [while (goalList.length > 0)] loop; it hands back [solutionPath]. *)
Fixpoint solutionPath_loop (fuel : nat) (problem : Problem)
         (searchMethod : string) (goalList : list GoalObject)
         (startNode : Coordinate) (solutionPath : list Solution)
  : Outcome (list Solution) :=
  match goalList with
  | [] => Returns solutionPath
  | _ :: _ =>
    match fuel with
    | O => OutOfFuel
    | S fuel =>
      match mapFindSolution problem startNode searchMethod goalList with
      | Returns solutions =>
        let solutions :=
          JsArray.sort
            (fun a b => Z.of_nat (length (path (solution_ b)))
                        - Z.of_nat (length (path (solution_ a))))
            solutions in
        match JsArray.pop solutions with
        | None => Throws
        | Some (solution, _) =>
          solutionPath_loop fuel problem searchMethod
            (filter (fun goal =>
                       negb (Nat.eqb (goalId goal) (goalId (goal_ solution))))
                    goalList)
            (goalCoordinate (goal_ solution))
            (solutionPath ++ [solution_ solution])
        end
      | ReturnsOther => Throws
      | Throws => Throws
      | OutOfFuel => OutOfFuel
      end
    end
  end.

(** The reducer of [solutionPath.reduce]. *)
Definition combine_ (combinedSolution solution : Solution) : Solution :=
  {| status := found;
     path := path combinedSolution ++ path solution;
     searchTree := searchTree combinedSolution ++ searchTree solution |}.

Definition finalSolution (solutionPath : list Solution) : Solution :=
  fold_left combine_ solutionPath
            {| status := fail; path := []; searchTree := [] |}.

(** The legs of a multi-goal run, in visiting order. *)
Definition solutionPath (problem : Problem) (searchMethod : string)
  : Outcome (list Solution) :=
  let goalList := cloneDeep (goals problem) in
  solutionPath_loop (length goalList) problem searchMethod goalList
                    (agentLocation problem) [].

Definition searchAllGoals (problem : Problem) (searchMethod : string)
  : Outcome Solution :=
  match solutionPath problem searchMethod with
  | Returns solutionPath => Returns (finalSolution solutionPath)
  | ReturnsOther => ReturnsOther
  | Throws => Throws
  | OutOfFuel => OutOfFuel
  end.

Definition searchMaze (problem : Problem) (searchMethod : string)
           (allGoals : bool) : Outcome Solution :=
  if allGoals then searchAllGoals problem searchMethod
  else
    match nth_error (goals problem) 0 with
    | Some goal =>
      findSolution problem (agentLocation problem) goal searchMethod
    | None => Throws
    end.

(** * Specification vocabulary *)

(** Manhattan distance between two coordinates. *)
Definition manhattan (a b : Coordinate) : Z :=
  Z.abs (x b - x a) + Z.abs (y b - y a).

(** A coordinate is inside a wall when both axes fall in
    [anchor, anchor + extent). *)
Definition insideWall (c : Coordinate) (w : Wall) : Prop :=
  wall_x w <= x c < wall_x w + wall_columns w
  /\ wall_y w <= y c < wall_y w + wall_rows w.

Definition inBounds (c : Coordinate) (mazeSize : MazeSize) : Prop :=
  0 <= x c < columns mazeSize /\ 0 <= y c < rows mazeSize.

(** Two nodes stand on the same cell. *)
Definition sameCell (a b : SearchNode) : Prop :=
  x (coordinates a) = x (coordinates b)
  /\ y (coordinates a) = y (coordinates b).

(** Nodes as the strategies build them for one goal: the root, and the
    candidates probed from a built node with that node's path. *)
Inductive Built (goal : Coordinate) : SearchNode -> Prop :=
| Built_root : forall agentLocation,
    Built goal (getInitialNode agentLocation goal)
| Built_candidate : forall parent mazeSize walls searchTree node,
    Built goal parent ->
    In node (probeCoordinates (coordinates parent)
                              (previousCoordinates parent ++ [parent])
                              mazeSize goal walls searchTree) ->
    Built goal node.

(** Sum of a list of integers. *)
Definition sumZ (l : list Z) : Z := fold_right Z.add 0 l.

(** A small concrete expansion used to exercise the engine: a 3x3 maze with
    one wall cell above the agent, the agent in the middle. *)
Module Example.

Definition maze : MazeSize := {| rows := 3; columns := 3 |}.
Definition goal : Coordinate := {| x := 2; y := 2 |}.
Definition centre : Coordinate := {| x := 1; y := 1 |}.
Definition wallAbove : Wall :=
  {| wall_x := 1; wall_y := 0; wall_columns := 1; wall_rows := 1 |}.
Definition root : SearchNode := getInitialNode centre goal.
Definition left : SearchNode :=
  {| direction := "left; ";
     coordinates := {| x := 0; y := 1 |};
     isGoal := false;
     previousCoordinates := [root];
     distanceToGoal :=
       {| fromCurrentNode := 3; fromStartingNode := 5; nodesTravelled := 1 |};
     depth := 1 |}.

End Example.

(** ** The skeleton shared by the five single-frontier strategies

    Each of [dfs], [bfs], [gbfs], [aStar] and [customOne] takes a node off
    its frontier, answers when the node is the goal, and otherwise probes
    the node, records the candidates and hands them to the frontier.  They
    differ in how a node is taken, in which order the candidates are
    recorded, and in how the candidates are put on the frontier. *)

Record Discipline : Type := mkDiscipline {
  take : list SearchNode -> option (SearchNode * list SearchNode);
  arrange : list SearchNode -> list SearchNode;
  put : list SearchNode -> list SearchNode -> list SearchNode }.

Section Skeleton.

Variable mazeSize_ : MazeSize.
Variable walls_ : list Wall.
Variable goal : Coordinate.
Variable d : Discipline.

Fixpoint skeleton_loop (fuel : nat) (frontier searchTree : list SearchNode)
  : Outcome Solution :=
  match fuel with
  | O => OutOfFuel
  | S fuel =>
    match take d frontier with
    | None => Returns {| status := fail; path := []; searchTree := searchTree |}
    | Some (searchLocation, rest) =>
      let path := previousCoordinates searchLocation ++ [searchLocation] in
      if isGoal searchLocation then
        Returns {| status := found;
                   path := map treeNode (Lodash.tail path);
                   searchTree := searchTree |}
      else
        let candidates :=
          arrange d (probeCoordinates (coordinates searchLocation) path
                                      mazeSize_ goal walls_ searchTree) in
        skeleton_loop fuel (put d rest candidates) (searchTree ++ candidates)
    end
  end.

End Skeleton.

Definition byFromCurrentNode (a b : SearchNode) : Z :=
  fromCurrentNode (distanceToGoal a) - fromCurrentNode (distanceToGoal b).

Definition byFromStartingNode (a b : SearchNode) : Z :=
  fromStartingNode (distanceToGoal a) - fromStartingNode (distanceToGoal b).

Definition dfsDiscipline : Discipline :=
  {| take := @JsArray.pop SearchNode;
     arrange := @rev SearchNode;
     put := fun rest candidates => rest ++ candidates |}.

Definition bfsDiscipline : Discipline :=
  {| take := @JsArray.shift SearchNode;
     arrange := fun candidates => candidates;
     put := fun rest candidates => rest ++ candidates |}.

Definition gbfsDiscipline : Discipline :=
  {| take := @JsArray.shift SearchNode;
     arrange := fun candidates => candidates;
     put := fun rest candidates =>
              JsArray.sort byFromCurrentNode (rest ++ candidates) |}.

Definition aStarDiscipline : Discipline :=
  {| take := @JsArray.shift SearchNode;
     arrange := fun candidates => candidates;
     put := fun rest candidates =>
              JsArray.sort byFromStartingNode (rest ++ candidates) |}.

Definition customOneDiscipline : Discipline :=
  {| take := @JsArray.pop SearchNode;
     arrange := @rev SearchNode;
     put := fun rest candidates =>
              if Lodash.get (hd_error candidates) depth 0 =? depthLimit + 1
              then rest
              else rest ++ candidates |}.

(** What the proofs need of a discipline. *)
Class Lawful (d : Discipline) : Prop := {
  take_none : forall l, take d l = None -> l = [];
  take_some : forall l n rest,
      take d l = Some (n, rest) -> Permutation l (n :: rest);
  arrange_perm : forall l, Permutation (arrange d l) l;
  put_incl : forall rest c, incl (put d rest c) (rest ++ c);
  put_length : forall rest c,
      (length (put d rest c) <= length rest + length c)%nat }.

(** The cells of a maze, and a search tree whose nodes after the root stand
    on pairwise different cells of the maze. *)
Definition cells (mazeSize : MazeSize) : list Coordinate :=
  map (fun p : nat * nat => mkCoordinate (Z.of_nat (fst p)) (Z.of_nat (snd p)))
      (list_prod (seq 0 (Z.to_nat (columns mazeSize)))
                 (seq 0 (Z.to_nat (rows mazeSize)))).

Definition TreeOk (mazeSize : MazeSize) (searchTree : list SearchNode) : Prop :=
  exists root added,
    searchTree = root :: added
    /\ NoDup (map coordinates added)
    /\ incl (map coordinates added) (cells mazeSize).

(** ** Vocabulary for solutions *)

Definition strategyNames : list string :=
  ["DFS"; "BFS"; "GBFS"; "AS"; "CUS1"; "CUS2"].

(** The five strategies that keep one frontier. *)
Definition singleFrontierNames : list string :=
  ["DFS"; "BFS"; "GBFS"; "AS"; "CUS1"].







(** What the command-line program reports of an outcome: the status, the
    number of moves and the number of nodes in the search tree. *)
Definition report (o : Outcome Solution) : option (Status * nat * nat) :=
  match o with
  | Returns s => Some (status s, length (path s), length (searchTree s))
  | _ => None
  end.

(** The statuses of the legs of a multi-goal run, in visiting order. *)
Definition legStatuses (o : Outcome (list Solution)) : option (list Status) :=
  match o with
  | Returns legs => Some (map status legs)
  | _ => None
  end.

(** A maze without walls, with one goal. *)
Definition openMaze (rows columns : Z) (agentLocation goal : Coordinate)
  : Problem :=
  {| mazeSize := {| rows := rows; columns := columns |};
     agentLocation := agentLocation;
     goals := [goal];
     walls := [] |}.

(** The smallest maze with a move in it: one row, two columns, the agent on
    the left cell and the goal on the right one. *)
Module Tiny.

Definition start : Coordinate := {| x := 0; y := 0 |}.
Definition goal : Coordinate := {| x := 1; y := 0 |}.
Definition problem : Problem := openMaze 1 2 start goal.
Definition root : SearchNode := getInitialNode start goal.
Definition right : SearchNode :=
  {| direction := "right; ";
     coordinates := goal;
     isGoal := true;
     previousCoordinates := [root];
     distanceToGoal :=
       {| fromCurrentNode := 0; fromStartingNode := 1; nodesTravelled := 1 |};
     depth := 1 |}.

(** What each single-frontier strategy returns on it. *)
Definition solution : Solution :=
  {| status := found; path := [treeNode right]; searchTree := [root; right] |}.

End Tiny.

(** Concrete problems: the agent standing on its goal in the middle of an
    open 5x5 maze and of an open 3x3 maze, the corner-to-corner run on the
    open 5x5 maze, and a 3x3 maze whose goal corner is walled off. *)
Module Scenario.

Definition onGoal5 : Problem :=
  openMaze 5 5 {| x := 2; y := 2 |} {| x := 2; y := 2 |}.

Definition onGoal3 : Problem :=
  openMaze 3 3 {| x := 1; y := 1 |} {| x := 1; y := 1 |}.

Definition corners5 : Problem :=
  openMaze 5 5 {| x := 0; y := 0 |} {| x := 4; y := 4 |}.

Definition enclosed : Problem :=
  {| mazeSize := {| rows := 3; columns := 3 |};
     agentLocation := {| x := 0; y := 0 |};
     goals := [ {| x := 2; y := 2 |} ];
     walls :=
       [ {| wall_x := 1; wall_y := 2; wall_columns := 1; wall_rows := 1 |};
         {| wall_x := 2; wall_y := 1; wall_columns := 1; wall_rows := 1 |} ] |}.

End Scenario.

(** ** Breadth-first search on an open maze: the loop invariant *)

(** Number of ancestors of a node. *)
Definition level (n : SearchNode) : nat := length (previousCoordinates n).

(** All in-bounds neighbours of the node's cell are in the tree. *)
Definition closedIn (mazeSize : MazeSize) (searchTree : list SearchNode)
           (n : SearchNode) : Prop :=
  forall c, In c (searchLocations (coordinates n)) ->
            inBounds c mazeSize ->
            exists p, In p searchTree /\ coordinates p = c.

Record BfsInvariant (mazeSize : MazeSize) (start goal : Coordinate)
       (frontier searchTree : list SearchNode) : Prop := mkBfsInvariant {
  (* every node sits at its Manhattan distance from the start *)
  bfs_levels : forall n, In n searchTree ->
      Z.of_nat (level n) = manhattan start (coordinates n)
      /\ inBounds (coordinates n) mazeSize;
  (* the start cell is in the tree *)
  bfs_root : exists r, In r searchTree /\ coordinates r = start;
  (* the frontier is part of the tree *)
  bfs_frontier : incl frontier searchTree;
  (* the queue holds at most two levels, the lower one first *)
  bfs_sorted :
      StronglySorted (fun a b => (level a <= level b)%nat) frontier;
  bfs_window : forall a b,
      In a frontier -> In b frontier -> (level b <= S (level a))%nat;
  (* a node that left the frontier has all its neighbours in the tree *)
  bfs_closed : forall n, In n searchTree ->
      In n frontier \/ closedIn mazeSize searchTree n;
  (* a frontier node is marked as goal exactly on the goal cell *)
  bfs_goal : forall n, In n frontier ->
      (isGoal n = true <-> coordinates n = goal);
  (* the goal cell, once generated, waits on the frontier *)
  bfs_waiting : forall n, In n searchTree -> coordinates n = goal ->
      In n frontier }.

(** ** A bounded check of A* against bidirectional A* *)

(** On the open maze of the given size, from [s] to [g]: both strategies
    report found, with paths as long as the Manhattan distance. *)
Definition agreeOn (rows columns : Z) (s g : Coordinate) : bool :=
  let problem := openMaze rows columns s g in
  match report (searchMaze problem "AS" false),
        report (searchMaze problem "CUS2" false) with
  | Some (found, la, _), Some (found, lb, _) =>
    Nat.eqb la lb && Nat.eqb la (Z.to_nat (manhattan s g))
  | _, _ => false
  end.

Definition smallSizes : list Z := [1; 2; 3; 4; 5].

(** Every open maze of at most 5x5 cells, every start and every other goal. *)
Definition agreeOnSmallMazes : bool :=
  forallb
    (fun rows =>
       forallb
         (fun columns =>
            let allCells := cells {| rows := rows; columns := columns |} in
            forallb
              (fun s =>
                 forallb (fun g => checkGoal s g || agreeOn rows columns s g)
                         allCells)
              allCells)
         smallSizes)
    smallSizes.

(** * Vocabulary for moves, routes and reachability *)

(** The cell a direction label leads to: the pairing of [directionString]
    with the four search locations in [probeCoordinates]. *)
Definition move (label : string) (c : Coordinate) : option Coordinate :=
  if String.eqb label "up; " then Some {| x := x c; y := y c - 1 |}
  else if String.eqb label "left; " then Some {| x := x c - 1; y := y c |}
  else if String.eqb label "down; " then Some {| x := x c; y := y c + 1 |}
  else if String.eqb label "right; " then Some {| x := x c + 1; y := y c |}
  else None.

(** Position of a label in the compass order up, left, down, right. *)
Definition compassRank (label : string) : nat :=
  if String.eqb label "up; " then 0
  else if String.eqb label "left; " then 1
  else if String.eqb label "down; " then 2
  else if String.eqb label "right; " then 3
  else 4.

(** A cell the agent may stand on: off every wall and inside the maze. *)
Definition isFree (mazeSize : MazeSize) (walls : list Wall) (c : Coordinate)
  : bool :=
  negb (checkWall c walls || checkOutOfBounds c mazeSize).

(** Following a list of direction labels from a cell: the cell reached, if
    every label is a move and every cell entered is free. *)
Fixpoint route (mazeSize : MazeSize) (walls : list Wall) (c : Coordinate)
         (labels : list string) : option Coordinate :=
  match labels with
  | [] => Some c
  | label :: rest =>
    match move label c with
    | Some c' =>
      if isFree mazeSize walls c' then route mazeSize walls c' rest else None
    | None => None
    end
  end.

(** The labels of a solution path, as the command-line program prints them
    one after the other. *)
Definition labels (s : Solution) : list string :=
  map entryDirection (path s).

(** A walk of [k] unit moves through free cells (the first cell itself is
    not looked at, as no strategy looks at its root's cell). *)
Inductive Walk (mazeSize : MazeSize) (walls : list Wall) (start : Coordinate)
  : nat -> Coordinate -> Prop :=
| Walk_start : Walk mazeSize walls start 0 start
| Walk_step : forall k c c',
    Walk mazeSize walls start k c ->
    In c' (searchLocations c) ->
    isFree mazeSize walls c' = true ->
    Walk mazeSize walls start (S k) c'.

Definition Reachable (mazeSize : MazeSize) (walls : list Wall)
           (start c : Coordinate) : Prop :=
  exists k, Walk mazeSize walls start k c.

(** The nodes [l], in order, are each one legal move from the one before,
    beginning one move from [c]: the label of a node is the move that leads
    to it, and its cell is free. *)
Fixpoint follows (mazeSize : MazeSize) (walls : list Wall) (c : Coordinate)
         (l : list SearchNode) : Prop :=
  match l with
  | [] => True
  | n :: rest =>
    move (direction n) c = Some (coordinates n)
    /\ isFree mazeSize walls (coordinates n) = true
    /\ follows mazeSize walls (coordinates n) rest
  end.

(** The cell of the last node of [l], or [c] when there is none. *)
Definition lastCell (c : Coordinate) (l : list SearchNode) : Coordinate :=
  Lodash.get (Lodash.lastElement l) coordinates c.

(** The four strategies that push every candidate on the frontier. *)
Definition exhaustiveNames : list string := ["DFS"; "BFS"; "GBFS"; "AS"].

(** ** What a single-frontier search keeps true of its tree *)

Record SearchInvariant (mazeSize : MazeSize) (walls : list Wall)
       (start goal : Coordinate) (frontier searchTree : list SearchNode)
  : Prop := mkSearchInvariant {
  (* the root comes first, every other node stands on a free cell *)
  inv_tree : exists added,
      searchTree = getInitialNode start goal :: added
      /\ forall a, In a added ->
                   isFree mazeSize walls (coordinates a) = true;
  (* no two nodes on the same cell *)
  inv_nodup : NoDup (map coordinates searchTree);
  inv_frontier : incl frontier searchTree;
  (* the ancestors of a node, with the node, are a chain of legal moves
     from the root *)
  inv_chain : forall n, In n searchTree ->
      exists rest,
        previousCoordinates n ++ [n] = getInitialNode start goal :: rest
        /\ follows mazeSize walls start rest;
  (* only a node on the goal cell is marked as goal *)
  inv_goal : forall n, In n searchTree ->
      isGoal n = true -> coordinates n = goal }.

(** A discipline that drops no candidate: whatever is left on the frontier
    or comes back from the probe is on the next frontier. *)
Class Exhaustive (d : Discipline) : Prop := {
  put_complete : forall rest c a, In a (rest ++ c) -> In a (put d rest c) }.

(** All free neighbours of the node's cell are in the tree. *)
Definition expanded (mazeSize : MazeSize) (walls : list Wall)
           (searchTree : list SearchNode) (n : SearchNode) : Prop :=
  forall c, In c (searchLocations (coordinates n)) ->
            isFree mazeSize walls c = true ->
            exists p, In p searchTree /\ coordinates p = c.

Record ClosureInvariant (mazeSize : MazeSize) (walls : list Wall)
       (goal : Coordinate) (frontier searchTree : list SearchNode)
  : Prop := mkClosureInvariant {
  (* a node that left the frontier has been expanded *)
  cl_closed : forall n, In n searchTree ->
      In n frontier \/ expanded mazeSize walls searchTree n;
  (* a node on the goal cell is marked as goal and waits on the frontier *)
  cl_waiting : forall n, In n searchTree -> coordinates n = goal ->
      In n frontier /\ isGoal n = true }.

(** ** Breadth-first search in a maze with walls: the loop invariant *)

Record ShortestInvariant (mazeSize : MazeSize) (walls : list Wall)
       (start : Coordinate) (frontier searchTree : list SearchNode)
  : Prop := mkShortestInvariant {
  (* the number of ancestors of a node is the length of a shortest walk
     from the start to its cell *)
  sp_levels : forall n, In n searchTree ->
      Walk mazeSize walls start (level n) (coordinates n)
      /\ forall k, Walk mazeSize walls start k (coordinates n) ->
                   (level n <= k)%nat;
  sp_root : exists r, In r searchTree /\ coordinates r = start;
  sp_frontier : incl frontier searchTree;
  (* the queue holds at most two levels, the lower one first *)
  sp_sorted :
      StronglySorted (fun a b => (level a <= level b)%nat) frontier;
  sp_window : forall a b,
      In a frontier -> In b frontier -> (level b <= S (level a))%nat;
  sp_closed : forall n, In n searchTree ->
      In n frontier \/ expanded mazeSize walls searchTree n }.

(** ** Frontiers ordered by a key *)

(** One iteration of a best-first loop: it answers, or it goes on with a
    frontier that holds the nodes left over and the candidates, sorted by
    the key, nodes with equal keys in the order they had before. *)
Definition keepsSorted (key : SearchNode -> Z)
           (loop : nat -> list SearchNode -> list SearchNode
                   -> Outcome Solution)
           (probe : SearchNode -> list SearchNode -> list SearchNode)
  : Prop :=
  forall frontier tree,
    (exists s, forall fuel, loop (S fuel) frontier tree = Returns s)
    \/ (exists n rest frontier',
           frontier = n :: rest
           /\ (forall fuel,
                  loop (S fuel) frontier tree
                  = loop fuel frontier' (tree ++ probe n tree))
           /\ Permutation frontier' (rest ++ probe n tree)
           /\ StronglySorted (fun a b => key a <= key b) frontier'
           /\ forall k,
                filter (fun a => key a =? k) frontier'
                = filter (fun a => key a =? k) (rest ++ probe n tree)).

(** ** The order of a multi-goal run *)

(** The goals still to visit once [chosen] has been reached. *)
Definition remaining (chosen : GoalObject) (goalList : list GoalObject)
  : list GoalObject :=
  filter (fun goal => negb (Nat.eqb (goalId goal) (goalId chosen))) goalList.

(** A greedy tour: each leg is the single-goal search from where the agent
    stands to one of the goals still to visit, chosen so that no goal still
    to visit has a shorter path from there; the next leg starts on the goal
    just chosen. *)
Inductive Tour (problem : Problem) (searchMethod : string)
  : Coordinate -> list GoalObject -> list Solution -> Prop :=
| Tour_done : forall startNode, Tour problem searchMethod startNode [] []
| Tour_leg : forall startNode goalList chosen s legs,
    In chosen goalList ->
    findSolution problem startNode (goalCoordinate chosen) searchMethod
    = Returns s ->
    (forall other s',
        In other goalList ->
        findSolution problem startNode (goalCoordinate other) searchMethod
        = Returns s' ->
        (length (path s) <= length (path s'))%nat) ->
    Tour problem searchMethod (goalCoordinate chosen)
         (remaining chosen goalList) legs ->
    Tour problem searchMethod startNode goalList (s :: legs).

(** ** Vocabulary for the bidirectional search *)

(** The cells [l], in order, are each a neighbour of the one before,
    beginning next to [c], and each of them is free. *)
Fixpoint linked (mazeSize : MazeSize) (walls : list Wall) (c : Coordinate)
         (l : list Coordinate) : Prop :=
  match l with
  | [] => True
  | c' :: rest =>
    In c' (searchLocations c)
    /\ isFree mazeSize walls c' = true
    /\ linked mazeSize walls c' rest
  end.

(** The ancestors of every node of the tree, with the node, are a chain of
    legal moves from [root]. *)
Definition Chained (mazeSize : MazeSize) (walls : list Wall)
           (root : SearchNode) (searchTree : list SearchNode) : Prop :=
  forall n, In n searchTree ->
    exists rest,
      previousCoordinates n ++ [n] = root :: rest
      /\ follows mazeSize walls (coordinates root) rest.

(** What the bidirectional loop keeps true of its two frontiers and its two
    trees. *)
Record MeetInvariant (mazeSize : MazeSize) (walls : list Wall)
       (root reverseRoot : SearchNode)
       (frontier searchTree reverseFrontier reverseSearchTree
        : list SearchNode) : Prop := mkMeetInvariant {
  mi_forward : Chained mazeSize walls root searchTree;
  mi_backward : Chained mazeSize walls reverseRoot reverseSearchTree;
  mi_frontier : incl frontier searchTree;
  mi_reverseFrontier : incl reverseFrontier reverseSearchTree }.

(** The four direction labels of a move. *)
Definition moveLabels : list string := ["up; "; "left; "; "down; "; "right; "].

(** * Properties of the expansion engine *)

Lemma inRange_spec : forall n s e,
  s <= n < e -> Lodash.inRange n s e = true.
Proof.
  intros n s e H. unfold Lodash.inRange.
  apply andb_true_intro; split; [apply Z.leb_le | apply Z.ltb_lt]; lia.
Qed.

Lemma checkWall_false : forall c walls w,
  checkWall c walls = false -> In w walls -> ~ insideWall c w.
Proof.
  intros c walls w Hc Hin [Hx Hy].
  unfold checkWall in Hc.
  assert (Ht : existsb
                 (fun w => Lodash.inRange (x c) (wall_x w) (wall_x w + wall_columns w)
                           && Lodash.inRange (y c) (wall_y w) (wall_y w + wall_rows w))
                 walls = true).
  { apply existsb_exists. exists w. split; [assumption|].
    rewrite !inRange_spec; auto. }
  congruence.
Qed.

Lemma checkOutOfBounds_false : forall c mazeSize,
  checkOutOfBounds c mazeSize = false <-> inBounds c mazeSize.
Proof.
  intros c m. unfold checkOutOfBounds, inBounds.
  rewrite !orb_false_iff, !Z.ltb_ge, !Z.geb_leb, !Z.leb_gt. lia.
Qed.

Lemma checkBacktrack_false : forall c searchTree,
  checkBacktrack c searchTree = false <->
  (forall p, In p searchTree ->
             ~ (x (coordinates p) = x c /\ y (coordinates p) = y c)).
Proof.
  intros c t. unfold checkBacktrack. split.
  - intros Hc p Hin [Hx Hy].
    assert (Ht : existsb
                   (fun p => (x (coordinates p) =? x c)
                             && (y (coordinates p) =? y c)) t = true).
    { apply existsb_exists. exists p. split; [assumption|].
      apply andb_true_intro; split; apply Z.eqb_eq; assumption. }
    congruence.
  - intros H. apply not_true_is_false. intros Ht.
    apply existsb_exists in Ht. destruct Ht as [p [Hin Hp]].
    apply andb_prop in Hp. destruct Hp as [Hx Hy].
    apply Z.eqb_eq in Hx. apply Z.eqb_eq in Hy.
    exact (H p Hin (conj Hx Hy)).
Qed.

(** What the filter of [probeCoordinates] lets through. *)
Lemma probeCoordinates_In : forall loc path mazeSize goal walls searchTree node,
  In node (probeCoordinates loc path mazeSize goal walls searchTree) <->
  In node (searchSpace loc path goal)
  /\ checkWall (coordinates node) walls = false
  /\ checkOutOfBounds (coordinates node) mazeSize = false
  /\ checkBacktrack (coordinates node) searchTree = false.
Proof.
  intros. unfold probeCoordinates. rewrite filter_In, negb_true_iff.
  rewrite !orb_false_iff. tauto.
Qed.

(** A candidate is off every wall, in bounds and on no cell of the tree. *)
Lemma probeCoordinates_sound :
  forall currentLocation path mazeSize goal walls searchTree node,
    In node (probeCoordinates currentLocation path mazeSize goal walls
                              searchTree) ->
    (forall w, In w walls -> ~ insideWall (coordinates node) w)
    /\ checkWall (coordinates node) walls = false
    /\ inBounds (coordinates node) mazeSize
    /\ (forall p, In p searchTree -> ~ sameCell p node).
Proof.
  intros loc path m goal walls t node H.
  apply probeCoordinates_In in H. destruct H as (_ & Hw & Ho & Hb).
  apply checkOutOfBounds_false in Ho.
  split; [| split; [| split]].
  - intros w Hin. eapply checkWall_false; eassumption.
  - assumption.
  - exact Ho.
  - intros p Hin. unfold sameCell.
    exact (proj1 (checkBacktrack_false _ _) Hb p Hin).
Qed.

(** C1: no candidate returned by [probeCoordinates] lies inside a wall
    rectangle, outside the maze bounds, or on a cell that already occurs in
    the supplied search tree. *)
Theorem probeCoordinates_valid :
  forall currentLocation path mazeSize goal walls searchTree node,
    In node (probeCoordinates currentLocation path mazeSize goal walls
                              searchTree) ->
    (forall w, In w walls -> ~ insideWall (coordinates node) w)
    /\ checkWall (coordinates node) walls = false
    /\ inBounds (coordinates node) mazeSize
    /\ (forall p, In p searchTree -> ~ sameCell p node).
Proof. exact probeCoordinates_sound. Qed.

Lemma probeCoordinates_valid_witness :
  (forall w, In w [Example.wallAbove] ->
             ~ insideWall (coordinates Example.left) w)
  /\ checkWall (coordinates Example.left) [Example.wallAbove] = false
  /\ inBounds (coordinates Example.left) Example.maze
  /\ (forall p, In p [Example.root] -> ~ sameCell p Example.left).
Proof.
  apply (probeCoordinates_valid Example.centre [Example.root] Example.maze
                                Example.goal [Example.wallAbove]
                                [Example.root] Example.left).
  vm_compute. left. reflexivity.
Defined.

(** The unfiltered candidates: what each of the four nodes holds. *)
Lemma searchSpace_In : forall loc path goal node,
  In node (searchSpace loc path goal) ->
  In (coordinates node) (searchLocations loc)
  /\ isGoal node = checkGoal (coordinates node) goal
  /\ previousCoordinates node = path
  /\ distanceToGoal node = calculateManhattan (coordinates node) path goal
  /\ depth node = Lodash.get (Lodash.lastElement path) depth 0 + 1.
Proof.
  intros loc path goal node H. unfold searchSpace in H. simpl in H.
  destruct H as [H | [H | [H | [H | []]]]]; subst node; simpl;
    repeat split; auto 6.
Qed.

Lemma lastElement_app : forall (A : Type) (l : list A) (a : A),
  Lodash.lastElement (l ++ [a]) = Some a.
Proof.
  induction l as [| b l IH]; intros a; [reflexivity|].
  simpl. rewrite IH. destruct (l ++ [a]) eqn:E; [|reflexivity].
  destruct l; discriminate.
Qed.

Lemma calculateManhattan_fields : forall c path goal,
  fromCurrentNode (calculateManhattan c path goal) = manhattan c goal
  /\ fromStartingNode (calculateManhattan c path goal)
     = Lodash.get (Lodash.lastElement path)
                  (fun p => fromStartingNode (distanceToGoal p)) 0
       + manhattan c goal
  /\ nodesTravelled (calculateManhattan c path goal) = Z.of_nat (length path).
Proof.
  intros. unfold calculateManhattan, manhattan. simpl.
  repeat split; lia.
Qed.

Lemma sumZ_app : forall l a, sumZ (l ++ [a]) = sumZ l + a.
Proof.
  induction l as [| b l IH]; intros a; simpl; [lia|]. rewrite IH. lia.
Qed.

Lemma Built_cumulative : forall goal node,
  Built goal node ->
  fromStartingNode (distanceToGoal node)
  = sumZ (map (fun a => manhattan (coordinates a) goal)
              (previousCoordinates node))
    + manhattan (coordinates node) goal.
Proof.
  intros goal node HB. induction HB as [loc | parent m walls t node HB IH Hin].
  - unfold manhattan. simpl. lia.
  - apply probeCoordinates_In in Hin. destruct Hin as (Hs & _).
    apply searchSpace_In in Hs. destruct Hs as (_ & _ & Hp & Hd & _).
    rewrite Hp, Hd.
    destruct (calculateManhattan_fields (coordinates node)
                (previousCoordinates parent ++ [parent]) goal) as (_ & Hf & _).
    rewrite Hf, lastElement_app, map_app. cbn [map Lodash.get].
    rewrite sumZ_app, IH. reflexivity.
Qed.

(** C3: a node built by the expansion engine has [fromCurrentNode] equal to
    its Manhattan distance to the goal, [fromStartingNode] equal to its
    parent's [fromStartingNode] (0 when the ancestor path is empty) plus that
    distance, and [nodesTravelled] equal to the length of its ancestor path;
    along a chain of built nodes [fromStartingNode] is therefore the sum of
    every ancestor's Manhattan distance to the goal plus the node's own. *)
Theorem calculateManhattan_heuristic :
  (forall currentLocation path mazeSize goal walls searchTree node,
      In node (probeCoordinates currentLocation path mazeSize goal walls
                                searchTree) ->
      fromCurrentNode (distanceToGoal node) = manhattan (coordinates node) goal
      /\ nodesTravelled (distanceToGoal node)
         = Z.of_nat (length (previousCoordinates node))
      /\ previousCoordinates node = path
      /\ (path = [] ->
          fromStartingNode (distanceToGoal node)
          = 0 + manhattan (coordinates node) goal)
      /\ (forall ancestors parent,
             path = ancestors ++ [parent] ->
             fromStartingNode (distanceToGoal node)
             = fromStartingNode (distanceToGoal parent)
               + manhattan (coordinates node) goal))
  /\ (forall agentLocation goal,
         let node := getInitialNode agentLocation goal in
         fromCurrentNode (distanceToGoal node) = manhattan agentLocation goal
         /\ fromStartingNode (distanceToGoal node)
            = 0 + manhattan agentLocation goal
         /\ nodesTravelled (distanceToGoal node) = 0)
  /\ (forall goal node,
         Built goal node ->
         fromStartingNode (distanceToGoal node)
         = sumZ (map (fun a => manhattan (coordinates a) goal)
                     (previousCoordinates node))
           + manhattan (coordinates node) goal).
Proof.
  split; [| split].
  - intros loc path m goal walls t node Hin.
    apply probeCoordinates_In in Hin. destruct Hin as (Hs & _).
    apply searchSpace_In in Hs. destruct Hs as (_ & _ & Hp & Hd & _).
    destruct (calculateManhattan_fields (coordinates node) path goal)
      as (Hc & Hf & Hn).
    rewrite Hd, Hp. repeat split; try assumption.
    + intros E. rewrite Hf, E. reflexivity.
    + intros ancestors parent E. rewrite Hf, E, lastElement_app. reflexivity.
  - intros loc goal node. subst node. unfold manhattan. simpl.
    repeat split; lia.
  - exact Built_cumulative.
Qed.

Lemma calculateManhattan_heuristic_witness :
  fromCurrentNode (distanceToGoal Example.left)
  = manhattan (coordinates Example.left) Example.goal
  /\ fromStartingNode (distanceToGoal Example.left)
     = fromStartingNode (distanceToGoal Example.root)
       + manhattan (coordinates Example.left) Example.goal
  /\ fromStartingNode (distanceToGoal Example.left)
     = sumZ (map (fun a => manhattan (coordinates a) Example.goal)
                 (previousCoordinates Example.left))
       + manhattan (coordinates Example.left) Example.goal.
Proof.
  destruct calculateManhattan_heuristic as (Hprobe & _ & Hbuilt).
  assert (Hin : In Example.left
                   (probeCoordinates Example.centre ([] ++ [Example.root])
                                     Example.maze Example.goal
                                     [Example.wallAbove] [Example.root])).
  { vm_compute. left. reflexivity. }
  destruct (Hprobe _ _ _ _ _ _ _ Hin) as (Hc & _ & _ & _ & Hparent).
  split; [exact Hc | split].
  - exact (Hparent [] Example.root eq_refl).
  - apply Hbuilt.
    eapply Built_candidate with (parent := Example.root);
      [apply Built_root | exact Hin].
Defined.

(** * Array operations *)

Lemma pop_spec : forall (A : Type) (l : list A),
  match JsArray.pop l with
  | None => l = []
  | Some (a, rest) => l = rest ++ [a]
  end.
Proof.
  intros A l. unfold JsArray.pop.
  destruct (rev l) as [| a r] eqn:E.
  - rewrite <- (rev_involutive l), E. reflexivity.
  - rewrite <- (rev_involutive l), E. reflexivity.
Qed.


Lemma insertSorted_perm : forall (A : Type) (compare : A -> A -> Z) a l,
  Permutation (JsArray.insertSorted compare a l) (a :: l).
Proof.
  induction l as [| b t IH]; simpl; [reflexivity|].
  destruct (compare a b <=? 0); [reflexivity|].
  rewrite IH. apply perm_swap.
Qed.

Lemma sort_perm : forall (A : Type) (compare : A -> A -> Z) l,
  Permutation (JsArray.sort compare l) l.
Proof.
  induction l as [| a t IH]; simpl; [reflexivity|].
  rewrite insertSorted_perm. constructor. exact IH.
Qed.

(** * The five strategies are instances of the skeleton *)

Lemma pop_take_some : forall (l : list SearchNode) n rest,
  JsArray.pop l = Some (n, rest) -> Permutation l (n :: rest).
Proof.
  intros l n rest H. pose proof (pop_spec l) as P. rewrite H in P. subst l.
  rewrite Permutation_app_comm. reflexivity.
Qed.

Lemma pop_take_none : forall (l : list SearchNode),
  JsArray.pop l = None -> l = [].
Proof.
  intros l H. pose proof (pop_spec l) as P. rewrite H in P. exact P.
Qed.

Lemma shift_take_some : forall (l : list SearchNode) n rest,
  JsArray.shift l = Some (n, rest) -> Permutation l (n :: rest).
Proof.
  intros [| a t] n rest H; simpl in H; [discriminate|].
  injection H as -> ->. reflexivity.
Qed.

Lemma shift_take_none : forall (l : list SearchNode),
  JsArray.shift l = None -> l = [].
Proof. intros [| a t] H; [reflexivity | discriminate]. Qed.

#[export] Instance dfs_lawful : Lawful dfsDiscipline.
Proof.
  constructor; simpl.
  - exact pop_take_none.
  - exact pop_take_some.
  - intros l. symmetry. apply Permutation_rev.
  - intros rest c. apply incl_refl.
  - intros rest c. rewrite length_app. lia.
Qed.

#[export] Instance bfs_lawful : Lawful bfsDiscipline.
Proof.
  constructor; simpl.
  - exact shift_take_none.
  - exact shift_take_some.
  - reflexivity.
  - intros rest c. apply incl_refl.
  - intros rest c. rewrite length_app. lia.
Qed.

#[export] Instance gbfs_lawful : Lawful gbfsDiscipline.
Proof.
  constructor; simpl.
  - exact shift_take_none.
  - exact shift_take_some.
  - reflexivity.
  - intros rest c a Ha. eapply Permutation_in; [apply sort_perm | exact Ha].
  - intros rest c. rewrite (Permutation_length (sort_perm _ _)), length_app. lia.
Qed.

#[export] Instance aStar_lawful : Lawful aStarDiscipline.
Proof.
  constructor; simpl.
  - exact shift_take_none.
  - exact shift_take_some.
  - reflexivity.
  - intros rest c a Ha. eapply Permutation_in; [apply sort_perm | exact Ha].
  - intros rest c. rewrite (Permutation_length (sort_perm _ _)), length_app. lia.
Qed.

#[export] Instance customOne_lawful : Lawful customOneDiscipline.
Proof.
  constructor; simpl.
  - exact pop_take_none.
  - exact pop_take_some.
  - intros l. symmetry. apply Permutation_rev.
  - intros rest c.
    destruct (_ =? _); [apply incl_appl|]; apply incl_refl.
  - intros rest c.
    destruct (_ =? _); rewrite ?length_app; lia.
Qed.

Section Instances.

Variable m : MazeSize.
Variable w : list Wall.
Variable g : Coordinate.

Lemma dfs_loop_skeleton : forall fuel frontier tree,
  dfs_loop m w g fuel frontier tree
  = skeleton_loop m w g dfsDiscipline fuel frontier tree.
Proof.
  induction fuel as [| fuel IH]; intros; simpl; [reflexivity|].
  destruct (JsArray.pop frontier) as [[n rest]|]; [|reflexivity].
  destruct (isGoal n); [reflexivity | apply IH].
Qed.

Lemma bfs_loop_skeleton : forall fuel frontier tree,
  bfs_loop m w g fuel frontier tree
  = skeleton_loop m w g bfsDiscipline fuel frontier tree.
Proof.
  induction fuel as [| fuel IH]; intros; simpl; [reflexivity|].
  destruct frontier as [| n rest]; [reflexivity|]. simpl.
  destruct (isGoal n); [reflexivity | apply IH].
Qed.

Lemma gbfs_loop_skeleton : forall fuel frontier tree,
  gbfs_loop m w g fuel frontier tree
  = skeleton_loop m w g gbfsDiscipline fuel frontier tree.
Proof.
  induction fuel as [| fuel IH]; intros; simpl; [reflexivity|].
  destruct (JsArray.shift frontier) as [[n rest]|]; [|reflexivity].
  destruct (isGoal n); [reflexivity | apply IH].
Qed.

Lemma aStar_loop_skeleton : forall fuel frontier tree,
  aStar_loop m w g fuel frontier tree
  = skeleton_loop m w g aStarDiscipline fuel frontier tree.
Proof.
  induction fuel as [| fuel IH]; intros; simpl; [reflexivity|].
  destruct (JsArray.shift frontier) as [[n rest]|]; [|reflexivity].
  destruct (isGoal n); [reflexivity | apply IH].
Qed.

Lemma customOne_loop_skeleton : forall fuel frontier tree,
  customOne_loop m w g fuel frontier tree
  = skeleton_loop m w g customOneDiscipline fuel frontier tree.
Proof.
  induction fuel as [| fuel IH]; intros; simpl; [reflexivity|].
  destruct (JsArray.pop frontier) as [[n rest]|]; [|reflexivity].
  destruct (isGoal n); [reflexivity|].
  destruct (_ =? _); apply IH.
Qed.

End Instances.

(** * Counting cells: every search ends *)

Lemma cells_In : forall c mazeSize,
  inBounds c mazeSize -> In c (cells mazeSize).
Proof.
  intros [cx cy] m [Hx Hy]. simpl in Hx, Hy. unfold cells.
  apply in_map_iff. exists (Z.to_nat cx, Z.to_nat cy). split.
  - simpl. f_equal; apply Z2Nat.id; lia.
  - apply in_prod; apply in_seq; lia.
Qed.

Lemma cells_length : forall mazeSize,
  length (cells mazeSize)
  = (Z.to_nat (columns mazeSize) * Z.to_nat (rows mazeSize))%nat.
Proof.
  intros m. unfold cells. rewrite length_map, length_prod, !length_seq.
  reflexivity.
Qed.

Lemma NoDup_map_filter : forall (A B : Type) (f : A -> B) (p : A -> bool) l,
  NoDup (map f l) -> NoDup (map f (filter p l)).
Proof.
  induction l as [| a l IH]; simpl; intros H; [constructor|].
  inversion H as [| ? ? Hn Hd]; subst.
  destruct (p a); simpl; [constructor|]; auto.
  intros Hin. apply Hn. apply in_map_iff in Hin.
  destruct Hin as [b [Eb Hb]]. apply filter_In in Hb.
  apply in_map_iff. exists b. tauto.
Qed.

Lemma searchLocations_NoDup : forall loc, NoDup (searchLocations loc).
Proof.
  intros [lx ly]. unfold searchLocations. simpl.
  repeat constructor; simpl; intros H;
    repeat (destruct H as [H | H]; [injection H; lia|]); exact H.
Qed.

Lemma probeCoordinates_NoDup : forall loc path mazeSize goal walls searchTree,
  NoDup (map coordinates
             (probeCoordinates loc path mazeSize goal walls searchTree)).
Proof.
  intros. unfold probeCoordinates. apply NoDup_map_filter.
  unfold searchSpace. rewrite map_map.
  replace (map _ (combine directionString (searchLocations loc)))
    with (searchLocations loc) by reflexivity.
  apply searchLocations_NoDup.
Qed.

Lemma TreeOk_root : forall mazeSize root, TreeOk mazeSize [root].
Proof.
  intros m r. exists r, []. repeat split; [constructor | intros a []].
Qed.

Lemma TreeOk_length : forall mazeSize searchTree,
  TreeOk mazeSize searchTree ->
  (length searchTree <= S (length (cells mazeSize)))%nat.
Proof.
  intros m t (r & added & -> & Hn & Hi). simpl. apply le_n_S.
  rewrite <- (length_map coordinates). apply NoDup_incl_length; assumption.
Qed.

Lemma TreeOk_step : forall mazeSize searchTree loc path goal walls candidates,
  TreeOk mazeSize searchTree ->
  Permutation candidates
              (probeCoordinates loc path mazeSize goal walls searchTree) ->
  TreeOk mazeSize (searchTree ++ candidates).
Proof.
  intros m t loc path goal walls c (r & added & -> & Hn & Hi) HP.
  exists r, (added ++ c). split; [reflexivity|].
  assert (Hc : forall node, In node c ->
                 inBounds (coordinates node) m
                 /\ forall p, In p (r :: added) -> ~ sameCell p node).
  { intros node Hin. apply (Permutation_in _ HP) in Hin.
    apply probeCoordinates_sound in Hin. tauto. }
  rewrite map_app. split.
  - apply NoDup_app; [assumption | |].
    + eapply Permutation_NoDup;
        [apply Permutation_map; symmetry; exact HP|].
      apply probeCoordinates_NoDup.
    + intros a Ha Hb.
      apply in_map_iff in Ha. destruct Ha as [p [Ep Hp]].
      apply in_map_iff in Hb. destruct Hb as [node [En Hnode]].
      destruct (Hc node Hnode) as [_ Hfresh].
      apply (Hfresh p (or_intror Hp)). unfold sameCell. rewrite Ep, En. tauto.
  - apply incl_app; [assumption|].
    intros a Ha. apply in_map_iff in Ha. destruct Ha as [node [En Hnode]].
    subst a. apply cells_In. apply (Hc node Hnode).
Qed.

Section SkeletonProofs.

Variable m : MazeSize.
Variable w : list Wall.
Variable g : Coordinate.
Variable d : Discipline.
Context {L : Lawful d}.

(** Invariant reasoning over the skeleton: an invariant [I] of the loop
    state that every iteration keeps gives [Q] of whatever is returned. *)
Lemma skeleton_rule :
  forall (I : list SearchNode -> list SearchNode -> Prop)
         (Q : Solution -> Prop),
    (forall frontier tree,
        I frontier tree -> take d frontier = None ->
        Q {| status := fail; path := []; searchTree := tree |}) ->
    (forall frontier tree n rest,
        I frontier tree -> take d frontier = Some (n, rest) ->
        isGoal n = true ->
        Q {| status := found;
             path := map treeNode
                         (Lodash.tail (previousCoordinates n ++ [n]));
             searchTree := tree |}) ->
    (forall frontier tree n rest,
        I frontier tree -> take d frontier = Some (n, rest) ->
        isGoal n = false ->
        let c := arrange d (probeCoordinates (coordinates n)
                              (previousCoordinates n ++ [n]) m g w tree) in
        I (put d rest c) (tree ++ c)) ->
    forall fuel frontier tree s,
      I frontier tree ->
      skeleton_loop m w g d fuel frontier tree = Returns s -> Q s.
Proof.
  intros I Q Hfail Hfound Hstep.
  induction fuel as [| fuel IH]; intros frontier tree s HI H; simpl in H;
    [discriminate|].
  destruct (take d frontier) as [[n rest]|] eqn:Et.
  - destruct (isGoal n) eqn:Eg.
    + injection H as <-. eapply Hfound; eassumption.
    + eapply IH; [|exact H]. eapply Hstep; eassumption.
  - injection H as <-. eapply Hfail; eassumption.
Qed.

(** With one unit of fuel per frontier node and per cell still missing from
    the tree, plus one, the loop answers. *)
Lemma skeleton_terminates : forall fuel frontier tree,
  TreeOk m tree ->
  (length frontier + (S (length (cells m)) - length tree) < fuel)%nat ->
  exists s, skeleton_loop m w g d fuel frontier tree = Returns s.
Proof.
  induction fuel as [| fuel IH]; intros frontier tree Hok Hlt; [lia|].
  simpl. destruct (take d frontier) as [[n rest]|] eqn:Et;
    [| eexists; reflexivity].
  destruct (isGoal n); [eexists; reflexivity|].
  set (c := arrange d _).
  assert (Hok' : TreeOk m (tree ++ c)).
  { eapply TreeOk_step; [exact Hok | apply arrange_perm]. }
  apply IH; [exact Hok'|].
  pose proof (TreeOk_length Hok') as Hlen. rewrite length_app in *.
  pose proof (Permutation_length (take_some _ Et)) as Hf. simpl in Hf.
  pose proof (put_length rest c). lia.
Qed.



End SkeletonProofs.

Lemma searchFuel_enough : forall mazeSize (root : SearchNode),
  (length [root] + (S (length (cells mazeSize)) - length [root])
   < searchFuel mazeSize)%nat.
Proof.
  intros m r. unfold searchFuel. rewrite cells_length. simpl. lia.
Qed.

(** Each single-frontier strategy answers on every problem, goal and
    initial node. *)
Lemma dfs_returns : forall problem goal initialSearchCoordinate,
  exists s, dfs problem goal initialSearchCoordinate = Returns s.
Proof.
  intros. unfold dfs. rewrite dfs_loop_skeleton.
  apply skeleton_terminates;
    [exact _ | apply TreeOk_root | apply searchFuel_enough].
Qed.

Lemma bfs_returns : forall problem goal initialSearchCoordinate,
  exists s, bfs problem goal initialSearchCoordinate = Returns s.
Proof.
  intros. unfold bfs. rewrite bfs_loop_skeleton.
  apply skeleton_terminates;
    [exact _ | apply TreeOk_root | apply searchFuel_enough].
Qed.

Lemma gbfs_returns : forall problem goal initialSearchCoordinate,
  exists s, gbfs problem goal initialSearchCoordinate = Returns s.
Proof.
  intros. unfold gbfs. rewrite gbfs_loop_skeleton.
  apply skeleton_terminates;
    [exact _ | apply TreeOk_root | apply searchFuel_enough].
Qed.

Lemma aStar_returns : forall problem goal initialSearchCoordinate,
  exists s, aStar problem goal initialSearchCoordinate = Returns s.
Proof.
  intros. unfold aStar. rewrite aStar_loop_skeleton.
  apply skeleton_terminates;
    [exact _ | apply TreeOk_root | apply searchFuel_enough].
Qed.

Lemma customOne_returns : forall problem goal initialSearchCoordinate,
  exists s, customOne problem goal initialSearchCoordinate = Returns s.
Proof.
  intros. unfold customOne. rewrite customOne_loop_skeleton.
  apply skeleton_terminates;
    [exact _ | apply TreeOk_root | apply searchFuel_enough].
Qed.

(** * The bidirectional strategy *)

Lemma sameCoordinates_refl : forall n, sameCoordinates n n = true.
Proof. intros n. unfold sameCoordinates. rewrite !Z.eqb_refl. reflexivity. Qed.

Lemma existsb_find : forall (A : Type) (p : A -> bool) l,
  existsb p l = true -> exists a, find p l = Some a.
Proof.
  induction l as [| a l IH]; simpl; intros H; [discriminate|].
  destruct (p a); [eexists; reflexivity | apply IH; exact H].
Qed.

Lemma In_existsb_same : forall n l,
  In n l -> existsb (sameCoordinates n) l = true.
Proof.
  intros n l H. apply existsb_exists. exists n.
  split; [exact H | apply sameCoordinates_refl].
Qed.





Section BidirectionalProofs.

Variable m : MazeSize.
Variable w : list Wall.
Variable agent : Coordinate.
Variable g : Coordinate.

(** The bidirectional loop answers, and never with a [TypeError]: the node
    it looks up with [find] is always there. *)
Lemma customTwo_terminates : forall fuel f t rf rt,
  TreeOk m t -> incl f t -> incl rf rt ->
  (length f + (S (length (cells m)) - length t) < fuel)%nat ->
  exists s, customTwo_loop m w agent g fuel f t rf rt = Returns s.
Proof.
  induction fuel as [| fuel IH]; intros f t rf rt Hok Hf Hr Hlt; [lia|].
  destruct f as [| n f']; [eexists; reflexivity|].
  destruct rf as [| rn rf']; [eexists; reflexivity|].
  cbn [customTwo_loop JsArray.shift].
  assert (Hn : In n t) by (apply Hf; left; reflexivity).
  assert (Hrn : In rn rt) by (apply Hr; left; reflexivity).
  destruct (existsb (sameCoordinates n) rt) eqn:E1.
  - apply In_existsb_same in Hn. apply existsb_find in Hn, E1.
    destruct Hn as [a ->]. destruct E1 as [b ->]. eexists; reflexivity.
  - destruct (existsb (sameCoordinates rn) t) eqn:E2.
    + apply In_existsb_same in Hrn. apply existsb_find in Hrn, E2.
      destruct E2 as [a ->]. destruct Hrn as [b ->]. eexists; reflexivity.
    + set (c := probeCoordinates (coordinates n) _ m g w t).
      set (rc := probeCoordinates (coordinates rn) _ m agent w rt).
      assert (Hok' : TreeOk m (t ++ c))
        by (eapply TreeOk_step; [exact Hok | unfold c; apply Permutation_refl]).
      apply IH; [exact Hok' | | |].
      * intros a Ha. apply (Permutation_in _ (sort_perm _ _)) in Ha.
        apply in_app_iff in Ha. apply in_app_iff.
        destruct Ha as [Ha | Ha]; [left; apply Hf; right; exact Ha | tauto].
      * intros a Ha. apply (Permutation_in _ (sort_perm _ _)) in Ha.
        apply in_app_iff in Ha. apply in_app_iff.
        destruct Ha as [Ha | Ha]; [left; apply Hr; right; exact Ha | tauto].
      * pose proof (TreeOk_length Hok') as Hlen.
        rewrite (Permutation_length (sort_perm _ _)).
        rewrite !length_app in *. cbn [length] in Hlt. lia.
Qed.



End BidirectionalProofs.

Lemma customTwo_returns : forall problem goal initialSearchCoordinate,
  exists s, customTwo problem goal initialSearchCoordinate = Returns s.
Proof.
  intros. unfold customTwo.
  apply customTwo_terminates;
    [apply TreeOk_root | apply incl_refl | apply incl_refl
     | apply searchFuel_enough].
Qed.

(** * Strategy selection *)


Lemma findSolution_named : forall problem startNode goal searchMethod,
  In searchMethod strategyNames ->
  exists s, findSolution problem startNode goal searchMethod = Returns s.
Proof.
  intros problem startNode goal searchMethod H. unfold strategyNames in H.
  simpl in H.
  destruct H as [<- | [<- | [<- | [<- | [<- | [<- | []]]]]]];
    unfold findSolution; cbn [selectAlgorithm ownProperty algorithmMap String.eqb
                              Ascii.eqb Bool.eqb].
  - apply dfs_returns.
  - apply bfs_returns.
  - apply gbfs_returns.
  - apply aStar_returns.
  - apply customOne_returns.
  - apply customTwo_returns.
Qed.





(** * Start on the goal *)

Lemma customTwo_on_goal : forall problem c,
  findSolution problem c c "CUS2"
  = Returns {| status := found;
               path := [];
               searchTree :=
                 [ getInitialNode c c;
                   getInitialNode c (agentLocation problem) ] |}.
Proof.
  intros problem c.
  unfold findSolution, customTwo. cbn [selectAlgorithm ownProperty algorithmMap
    String.eqb Ascii.eqb Bool.eqb]. unfold customTwo, searchFuel.
  cbn [customTwo_loop JsArray.shift].
  assert (E : existsb (sameCoordinates (getInitialNode c c))
                      [getInitialNode c (agentLocation problem)] = true).
  { unfold sameCoordinates. simpl. rewrite !Z.eqb_refl. reflexivity. }
  rewrite E. cbn [find]. rewrite sameCoordinates_refl.
  replace (sameCoordinates (getInitialNode c c)
                           (getInitialNode c (agentLocation problem)))
    with true
    by (unfold sameCoordinates; simpl; rewrite !Z.eqb_refl; reflexivity).
  reflexivity.
Qed.

(** C9: when the start coordinate equals the goal coordinate, the
    bidirectional strategy answers in its first iteration, before any
    expansion: status found, empty path, and a search tree made of the
    forward root and the backward root, two nodes on the same cell.  This
    holds of [findSolution] from any start, and so of the single-goal
    [searchMaze] when the agent stands on the first goal. *)
Theorem customTwo_start_is_goal :
  (forall problem startNode goal,
      startNode = goal ->
      findSolution problem startNode goal "CUS2"
      = Returns {| status := found;
                   path := [];
                   searchTree :=
                     [ getInitialNode startNode goal;
                       getInitialNode goal (agentLocation problem) ] |}
      /\ sameCell (getInitialNode startNode goal)
                  (getInitialNode goal (agentLocation problem)))
  /\ (forall problem goal otherGoals,
         goals problem = goal :: otherGoals ->
         agentLocation problem = goal ->
         searchMaze problem "CUS2" false
         = Returns {| status := found;
                      path := [];
                      searchTree :=
                        [ getInitialNode goal goal;
                          getInitialNode goal goal ] |}).
Proof.
  split.
  - intros problem startNode goal ->. split; [apply customTwo_on_goal|].
    split; reflexivity.
  - intros problem goal otherGoals Hg Ha. unfold searchMaze.
    rewrite Hg. cbn [nth_error]. rewrite Ha, customTwo_on_goal, Ha.
    reflexivity.
Qed.

Lemma customTwo_start_is_goal_witness :
  searchMaze Scenario.onGoal5 "CUS2" false
  = Returns {| status := found;
               path := [];
               searchTree :=
                 [ getInitialNode (mkCoordinate 2 2) (mkCoordinate 2 2);
                   getInitialNode (mkCoordinate 2 2) (mkCoordinate 2 2) ] |}.
Proof.
  destruct customTwo_start_is_goal as [_ H].
  apply (H Scenario.onGoal5 (mkCoordinate 2 2) []); reflexivity.
Defined.

Section StartIsGoal.

Variable m : MazeSize.
Variable w : list Wall.
Variable g : Coordinate.
Variable d : Discipline.
Context {L : Lawful d}.

(** A search whose tree already holds a node on the goal cell, and whose
    frontier holds no node marked as goal, never meets one: the goal cell is
    filtered out of every expansion. *)
Lemma skeleton_goal_in_tree : forall fuel frontier tree s,
  (exists r, In r tree /\ x (coordinates r) = x g /\ y (coordinates r) = y g) ->
  (forall n, In n frontier -> isGoal n = false) ->
  skeleton_loop m w g d fuel frontier tree = Returns s ->
  status s = fail /\ path s = [].
Proof.
  intros fuel frontier tree s Hr Hf H.
  apply (skeleton_rule m w g d
           (fun frontier tree =>
              (exists r, In r tree
                         /\ x (coordinates r) = x g /\ y (coordinates r) = y g)
              /\ forall n, In n frontier -> isGoal n = false)
           (fun s => status s = fail /\ path s = []))
    with (fuel := fuel) (frontier := frontier) (tree := tree);
    [ | | | split; assumption | exact H].
  - intros; split; reflexivity.
  - intros fr t n rest [_ Hfr] Et Eg.
    rewrite (Hfr n) in Eg; [discriminate|].
    apply (Permutation_in _ (Permutation_sym (take_some _ Et))). left; reflexivity.
  - intros fr t n rest [(r & Hin & Hx & Hy) Hfr] Et Eg c. split.
    + exists r. split; [apply in_app_iff; left; exact Hin | tauto].
    + intros a Ha. apply put_incl in Ha. apply in_app_iff in Ha.
      destruct Ha as [Ha | Ha].
      * apply Hfr. apply (Permutation_in _ (Permutation_sym (take_some _ Et))).
        right; exact Ha.
      * apply (Permutation_in _ (arrange_perm _)) in Ha.
        pose proof (probeCoordinates_sound _ _ _ _ _ _ _ Ha) as (_ & _ & _ & Hfresh).
        apply probeCoordinates_In in Ha. destruct Ha as (Hs & _).
        apply searchSpace_In in Hs. destruct Hs as (_ & Hg & _).
        rewrite Hg. apply not_true_is_false. intros Hc.
        unfold checkGoal in Hc. apply andb_prop in Hc.
        destruct Hc as [Hcx Hcy]. apply Z.eqb_eq in Hcx, Hcy.
        apply (Hfresh r Hin). unfold sameCell. lia.
Qed.

End StartIsGoal.

(** The five single-frontier strategies, started on the goal, search
    the maze and report failure: the root is never marked as goal. *)
Lemma start_is_goal_fails : forall problem startNode goal searchMethod,
  startNode = goal ->
  In searchMethod singleFrontierNames ->
  exists s, findSolution problem startNode goal searchMethod = Returns s
            /\ status s = fail /\ path s = [].
Proof.
  intros problem startNode goal searchMethod -> Hin.
  assert (Hs : In searchMethod strategyNames).
  { unfold singleFrontierNames, strategyNames in *. simpl in *. tauto. }
  destruct (findSolution_named problem goal goal Hs) as [s Hret].
  exists s. split; [exact Hret|].
  assert (Hroot : exists r, In r [getInitialNode goal goal]
                            /\ x (coordinates r) = x goal
                            /\ y (coordinates r) = y goal).
  { eexists. split; [left; reflexivity | split; reflexivity]. }
  assert (Hfr : forall n, In n [getInitialNode goal goal] -> isGoal n = false).
  { intros n [<- | []]. reflexivity. }
  unfold singleFrontierNames in Hin. simpl in Hin.
  destruct Hin as [<- | [<- | [<- | [<- | [<- | []]]]]];
    unfold findSolution in Hret;
    cbn [selectAlgorithm ownProperty algorithmMap String.eqb Ascii.eqb Bool.eqb]
      in Hret.
  - unfold dfs in Hret. rewrite dfs_loop_skeleton in Hret.
    exact (@skeleton_goal_in_tree _ _ _ dfsDiscipline _ _ _ _ _ Hroot Hfr Hret).
  - unfold bfs in Hret. rewrite bfs_loop_skeleton in Hret.
    exact (@skeleton_goal_in_tree _ _ _ bfsDiscipline _ _ _ _ _ Hroot Hfr Hret).
  - unfold gbfs in Hret. rewrite gbfs_loop_skeleton in Hret.
    exact (@skeleton_goal_in_tree _ _ _ gbfsDiscipline _ _ _ _ _ Hroot Hfr Hret).
  - unfold aStar in Hret. rewrite aStar_loop_skeleton in Hret.
    exact (@skeleton_goal_in_tree _ _ _ aStarDiscipline _ _ _ _ _ Hroot Hfr Hret).
  - unfold customOne in Hret. rewrite customOne_loop_skeleton in Hret.
    exact (@skeleton_goal_in_tree _ _ _ customOneDiscipline _ _ _ _ _ Hroot Hfr Hret).
Qed.

(** * The search tree and the path *)


Lemma tail_length : forall (A : Type) (l : list A),
  length (Lodash.tail l) = Nat.pred (length l).
Proof. intros A [| b l]; reflexivity. Qed.

Section PathProofs.

Variable m : MazeSize.
Variable w : list Wall.
Variable g : Coordinate.
Variable d : Discipline.
Context {L : Lawful d}.


End PathProofs.







(** * Depth-limited search *)

(** Every candidate is one level below the node it was probed from. *)
Lemma candidate_depth : forall n mazeSize goal walls searchTree c,
  In c (probeCoordinates (coordinates n) (previousCoordinates n ++ [n])
                         mazeSize goal walls searchTree) ->
  depth c = depth n + 1
  /\ previousCoordinates c = previousCoordinates n ++ [n].
Proof.
  intros n m g w t c H. apply probeCoordinates_In in H.
  destruct H as (Hs & _). apply searchSpace_In in Hs.
  destruct Hs as (_ & _ & Hp & _ & Hd).
  rewrite Hd, lastElement_app. split; [reflexivity | exact Hp].
Qed.

(** The test that guards the push, in terms of the probed node. *)
Lemma customOne_push_test : forall n mazeSize goal walls searchTree rest,
  let candidates :=
    rev (probeCoordinates (coordinates n) (previousCoordinates n ++ [n])
                          mazeSize goal walls searchTree) in
  put customOneDiscipline rest candidates
  = if depth n =? depthLimit then rest else rest ++ candidates.
Proof.
  intros n m g w t rest candidates.
  assert (Hall : forall c, In c candidates -> depth c = depth n + 1).
  { intros c Hc. apply in_rev in Hc. eapply candidate_depth; exact Hc. }
  clearbody candidates. simpl.
  destruct candidates as [| h c'].
  - simpl. rewrite app_nil_r. destruct (depth n =? depthLimit); reflexivity.
  - pose proof (Hall h (or_introl eq_refl)) as Hh.
    simpl. rewrite Hh. unfold depthLimit.
    destruct (depth n =? 10) eqn:E1; destruct (depth n + 1 =? 11) eqn:E2;
      try reflexivity.
    + apply Z.eqb_eq in E1. apply Z.eqb_neq in E2. lia.
    + apply Z.eqb_neq in E1. apply Z.eqb_eq in E2. lia.
Qed.

Lemma customOne_path_bounded : forall m w g fuel frontier tree s,
  (forall n, In n frontier ->
             depth n = Z.of_nat (length (previousCoordinates n))
             /\ depth n <= depthLimit) ->
  skeleton_loop m w g customOneDiscipline fuel frontier tree = Returns s ->
  status s = found -> Z.of_nat (length (path s)) <= depthLimit.
Proof.
  intros m w g fuel frontier tree s Hinv H.
  apply (skeleton_rule m w g customOneDiscipline
           (fun frontier tree =>
              forall n, In n frontier ->
                depth n = Z.of_nat (length (previousCoordinates n))
                /\ depth n <= depthLimit)
           (fun s => status s = found ->
                     Z.of_nat (length (path s)) <= depthLimit))
    with (fuel := fuel) (frontier := frontier) (tree := tree);
    [ | | | exact Hinv | exact H].
  - intros fr t _ _ Hs. discriminate.
  - intros fr t n rest Hfr Et _ _. simpl.
    rewrite length_map, tail_length, length_app. simpl.
    assert (Hn : In n fr).
    { apply (Permutation_in _ (Permutation_sym (take_some _ Et))).
      left; reflexivity. }
    destruct (Hfr n Hn) as [Hd Hl]. rewrite Nat.add_1_r. simpl. lia.
  - intros fr t n rest Hfr Et _ c a Ha.
    assert (Hn : In n fr).
    { apply (Permutation_in _ (Permutation_sym (take_some _ Et))).
      left; reflexivity. }
    destruct (Hfr n Hn) as [Hd Hl].
    assert (Hrest : In a rest ->
                    depth a = Z.of_nat (length (previousCoordinates a))
                    /\ depth a <= depthLimit).
    { intros Hr. apply Hfr.
      apply (Permutation_in _ (Permutation_sym (take_some _ Et))).
      right; exact Hr. }
    unfold c in Ha. cbn [arrange customOneDiscipline] in Ha.
    rewrite customOne_push_test in Ha.
    destruct (depth n =? depthLimit) eqn:E; [auto|].
    apply in_app_iff in Ha. destruct Ha as [Ha | Ha]; [auto|].
    apply in_rev in Ha. apply candidate_depth in Ha. destruct Ha as [Hda Hpa].
    apply Z.eqb_neq in E. rewrite Hda, Hpa, length_app. simpl. lia.
Qed.



(** The limit is reached and not passed: in a corridor the goal ten moves
    away is found; eleven moves away its node is still generated and
    recorded in the tree (12 nodes), but never taken off a frontier, and the
    search fails where plain depth-first search succeeds. *)
Lemma customOne_limit_is_tight :
  report (searchMaze (openMaze 1 11 (mkCoordinate 0 0) (mkCoordinate 10 0))
                     "CUS1" false)
  = Some (found, 10%nat, 11%nat)
  /\ report (searchMaze (openMaze 1 12 (mkCoordinate 0 0) (mkCoordinate 11 0))
                        "CUS1" false)
     = Some (fail, 0%nat, 12%nat)
  /\ report (searchMaze (openMaze 1 12 (mkCoordinate 0 0) (mkCoordinate 11 0))
                        "DFS" false)
     = Some (found, 11%nat, 12%nat).
Proof. repeat split; vm_compute; reflexivity. Qed.

(** * The single-goal search on concrete mazes *)

(** C2 at the input where the code departs from it: on an open 5x5 maze
    with the agent on the goal cell (2,2) the Manhattan distance is 0, yet
    breadth-first search generates all 25 cells and reports failure. *)
Theorem bfs_start_on_goal :
  manhattan (agentLocation Scenario.onGoal5) {| x := 2; y := 2 |} = 0
  /\ report (searchMaze Scenario.onGoal5 "BFS" false) = Some (fail, 0%nat, 25%nat).
Proof. split; vm_compute; reflexivity. Qed.

(** The corner-to-corner scenario: found, in 8 moves. *)
Lemma bfs_corner_to_corner :
  report (searchMaze Scenario.corners5 "BFS" false) = Some (found, 8%nat, 25%nat)
  /\ manhattan (agentLocation Scenario.corners5) {| x := 4; y := 4 |} = 8.
Proof. split; vm_compute; reflexivity. Qed.

(** C4 at the input where the code departs from it: with the agent on the
    goal, each single-frontier strategy generates every cell of the open 3x3
    maze and reports failure, where the claim has status found and a tree of
    the root alone. *)
Theorem start_on_goal_reports :
  report (searchMaze Scenario.onGoal3 "DFS" false) = Some (fail, 0%nat, 9%nat)
  /\ report (searchMaze Scenario.onGoal3 "BFS" false) = Some (fail, 0%nat, 9%nat)
  /\ report (searchMaze Scenario.onGoal3 "GBFS" false) = Some (fail, 0%nat, 9%nat)
  /\ report (searchMaze Scenario.onGoal3 "AS" false) = Some (fail, 0%nat, 9%nat)
  /\ report (searchMaze Scenario.onGoal3 "CUS1" false) = Some (fail, 0%nat, 9%nat).
Proof. repeat split; vm_compute; reflexivity. Qed.

(** C7 at the input where the code departs from it: with the agent on the
    goal of an open 5x5 maze, A* reports failure while bidirectional A*
    reports found. *)
Theorem aStar_customTwo_start_on_goal :
  report (searchMaze Scenario.onGoal5 "AS" false) = Some (fail, 0%nat, 25%nat)
  /\ report (searchMaze Scenario.onGoal5 "CUS2" false) = Some (found, 0%nat, 2%nat).
Proof. split; vm_compute; reflexivity. Qed.

(** * The multi-goal orchestrator *)

Lemma fold_combine : forall legs acc,
  path (fold_left combine_ legs acc)
  = path acc ++ concat (map path legs)
  /\ searchTree (fold_left combine_ legs acc)
     = searchTree acc ++ concat (map searchTree legs)
  /\ status (fold_left combine_ legs acc)
     = match legs with [] => status acc | _ :: _ => found end.
Proof.
  induction legs as [| s l IH]; intros acc; simpl.
  - rewrite !app_nil_r. auto.
  - destruct (IH (combine_ acc s)) as (Hp & Ht & Hs).
    rewrite Hp, Ht, Hs. simpl. rewrite <- !app_assoc.
    repeat split. destruct l; reflexivity.
Qed.

(** The combined solution strings the legs' paths and trees together in
    visiting order, nothing dropped; its status is found as soon as there is
    a leg, whatever the legs' own statuses. *)
Lemma finalSolution_concat : forall legs,
  path (finalSolution legs) = concat (map path legs)
  /\ searchTree (finalSolution legs)
     = concat (map searchTree legs)
  /\ (status (finalSolution legs) = found <-> legs <> []).
Proof.
  intros l. unfold finalSolution.
  destruct (fold_combine l {| status := fail; path := []; searchTree := [] |})
    as (Hp & Ht & Hs).
  rewrite Hp, Ht, Hs. simpl. repeat split.
  - intros H E. subst l. discriminate.
  - intros H. destruct l; [contradiction | reflexivity].
Qed.

Lemma searchAllGoals_legs : forall problem searchMethod s,
  searchAllGoals problem searchMethod = Returns s ->
  exists legs,
    solutionPath problem searchMethod = Returns legs
    /\ path s = concat (map path legs)
    /\ searchTree s = concat (map searchTree legs)
    /\ (status s = found <-> legs <> []).
Proof.
  intros problem searchMethod s H. unfold searchAllGoals in H.
  destruct (solutionPath problem searchMethod) as [legs | | |];
    try discriminate.
  injection H as <-. exists legs. split; [reflexivity|].
  apply finalSolution_concat.
Qed.

(** C5 at the input where the code departs from it: the only goal is walled
    off, so the one leg fails -- the single-goal search reports failure --
    yet the multi-goal search reports found, with an empty path. *)
Theorem searchAllGoals_enclosed_goal :
  report (searchMaze Scenario.enclosed "BFS" false) = Some (fail, 0%nat, 6%nat)
  /\ legStatuses (solutionPath Scenario.enclosed "BFS") = Some [fail]
  /\ report (searchMaze Scenario.enclosed "BFS" true) = Some (found, 0%nat, 6%nat).
Proof. repeat split; vm_compute; reflexivity. Qed.

(** * Breadth-first search on an open maze *)

Lemma coordinate_eq : forall a b : Coordinate,
  x a = x b -> y a = y b -> a = b.
Proof. intros [ax ay] [bx b_y]; simpl; intros; subst; reflexivity. Qed.

Lemma checkBacktrack_true : forall c searchTree,
  checkBacktrack c searchTree = true <->
  exists p, In p searchTree /\ coordinates p = c.
Proof.
  intros c t. unfold checkBacktrack. rewrite existsb_exists. split.
  - intros [p [Hin Hp]]. exists p. split; [exact Hin|].
    apply andb_prop in Hp. destruct Hp as [Hx Hy].
    apply Z.eqb_eq in Hx, Hy. apply coordinate_eq; assumption.
  - intros [p [Hin <-]]. exists p. split; [exact Hin|].
    rewrite !Z.eqb_refl. reflexivity.
Qed.

(** On an open maze every in-bounds neighbour that is not yet in the tree
    comes back as a candidate. *)
Lemma probeCoordinates_open : forall loc path mazeSize goal searchTree c,
  In c (searchLocations loc) ->
  inBounds c mazeSize ->
  checkBacktrack c searchTree = false ->
  exists node,
    In node (probeCoordinates loc path mazeSize goal [] searchTree)
    /\ coordinates node = c.
Proof.
  intros loc path m g t c Hc Hb Ht.
  assert (Hs : exists node, In node (searchSpace loc path g)
                            /\ coordinates node = c).
  { unfold searchSpace. simpl in Hc |- *.
    destruct Hc as [<- | [<- | [<- | [<- | []]]]].
    - eexists; split; [left; reflexivity | reflexivity].
    - eexists; split; [right; left; reflexivity | reflexivity].
    - eexists; split; [right; right; left; reflexivity | reflexivity].
    - eexists; split; [right; right; right; left; reflexivity | reflexivity]. }
  destruct Hs as [node [Hin <-]]. exists node. split; [|reflexivity].
  apply probeCoordinates_In. repeat split; try assumption.
  apply checkOutOfBounds_false. exact Hb.
Qed.

Lemma manhattan_nonneg : forall a b, 0 <= manhattan a b.
Proof. intros. unfold manhattan. lia. Qed.

(** A unit move changes the Manhattan distance from any cell by one. *)
Lemma manhattan_neighbour : forall s loc c,
  In c (searchLocations loc) ->
  manhattan s c = manhattan s loc + 1 \/ manhattan s c = manhattan s loc - 1.
Proof.
  intros s loc c H. unfold manhattan. simpl in H.
  destruct H as [<- | [<- | [<- | [<- | []]]]]; simpl; lia.
Qed.

(** From a cell other than the start, one in-bounds unit move brings the
    agent closer to the start. *)
Lemma manhattan_toward : forall mazeSize s c,
  inBounds s mazeSize -> inBounds c mazeSize -> 0 < manhattan s c ->
  exists c', inBounds c' mazeSize
             /\ manhattan s c' = manhattan s c - 1
             /\ In c (searchLocations c').
Proof.
  intros m s c [Hsx Hsy] [Hcx Hcy] Hd. unfold manhattan in *.
  destruct (Z.lt_trichotomy (x c) (x s)) as [Hx | [Hx | Hx]].
  - exists {| x := x c + 1; y := y c |}. unfold inBounds. simpl.
    repeat split; try lia.
    right; left. apply coordinate_eq; simpl; lia.
  - destruct (Z.lt_trichotomy (y c) (y s)) as [Hy | [Hy | Hy]].
    + exists {| x := x c; y := y c + 1 |}. unfold inBounds. simpl.
      repeat split; try lia.
      left. apply coordinate_eq; simpl; lia.
    + lia.
    + exists {| x := x c; y := y c - 1 |}. unfold inBounds. simpl.
      repeat split; try lia.
      right; right; left. apply coordinate_eq; simpl; lia.
  - exists {| x := x c - 1; y := y c |}. unfold inBounds. simpl.
    repeat split; try lia.
    right; right; right; left. apply coordinate_eq; simpl; lia.
Qed.

Lemma StronglySorted_app : forall (A : Type) (R : A -> A -> Prop) l1 l2,
  StronglySorted R l1 -> StronglySorted R l2 ->
  (forall a b, In a l1 -> In b l2 -> R a b) ->
  StronglySorted R (l1 ++ l2).
Proof.
  induction l1 as [| a l1 IH]; intros l2 H1 H2 H; simpl; [exact H2|].
  inversion H1 as [| ? ? Hs Hf]; subst. constructor.
  - apply IH; [exact Hs | exact H2 |].
    intros; apply H; [right|]; assumption.
  - apply Forall_app. split; [exact Hf|].
    apply Forall_forall. intros b Hb. apply H; [left; reflexivity | exact Hb].
Qed.

Lemma StronglySorted_all : forall (A : Type) (R : A -> A -> Prop) l,
  (forall a b, In a l -> In b l -> R a b) -> StronglySorted R l.
Proof.
  induction l as [| a l IH]; intros H; constructor.
  - apply IH. intros; apply H; right; assumption.
  - apply Forall_forall. intros b Hb. apply H; [left; reflexivity | right; exact Hb].
Qed.

Lemma checkGoal_true : forall c goal,
  checkGoal c goal = true <-> c = goal.
Proof.
  intros c goal. unfold checkGoal. split.
  - intros H. apply andb_prop in H. destruct H as [Hx Hy].
    apply Z.eqb_eq in Hx, Hy. apply coordinate_eq; congruence.
  - intros ->. rewrite !Z.eqb_refl. reflexivity.
Qed.

Section BfsOpen.

Variable m : MazeSize.
Variable s : Coordinate.
Variable g : Coordinate.
Hypothesis start_inBounds : inBounds s m.

(** Every cell no farther from the start than the nearest frontier level is
    already in the tree. *)
Lemma bfs_complete : forall frontier tree,
  BfsInvariant m s g frontier tree ->
  forall k c,
    inBounds c m -> manhattan s c = Z.of_nat k ->
    (forall n, In n frontier -> (k <= level n)%nat) ->
    exists p, In p tree /\ coordinates p = c.
Proof.
  intros frontier tree J. induction k as [| k IH]; intros c Hb Hd Hfr.
  - destruct (bfs_root J) as [r [Hr Er]]. exists r. split; [exact Hr|].
    rewrite Er. unfold manhattan in Hd. apply coordinate_eq; lia.
  - destruct (manhattan_toward start_inBounds Hb) as (c' & Hb' & Hd' & Hn);
      [lia|].
    destruct (IH c' Hb') as [p' [Hp' Ep']]; [lia | |].
    { intros n Hn'. apply Hfr in Hn'. lia. }
    destruct (bfs_closed J p' Hp') as [Hin | Hcl].
    + apply Hfr in Hin. destruct (bfs_levels J p' Hp') as [Hl _].
      rewrite Ep' in Hl. lia.
    + apply Hcl; [rewrite Ep'; exact Hn | exact Hb].
Qed.

Lemma bfs_invariant_init :
  s <> g ->
  BfsInvariant m s g [getInitialNode s g] [getInitialNode s g].
Proof.
  intros Hsg. constructor.
  - intros n [<- | []]. split; [| exact start_inBounds].
    unfold manhattan, level. simpl. lia.
  - eexists. split; [left; reflexivity | reflexivity].
  - apply incl_refl.
  - repeat constructor.
  - intros a b [<- | []] [<- | []]. lia.
  - intros n Hn. left; exact Hn.
  - intros n [<- | []]. simpl. split; [discriminate | contradiction].
  - intros n Hn _. exact Hn.
Qed.

Lemma bfs_invariant_step : forall n rest tree,
  BfsInvariant m s g (n :: rest) tree ->
  isGoal n = false ->
  let c := probeCoordinates (coordinates n) (previousCoordinates n ++ [n])
                            m g [] tree in
  BfsInvariant m s g (rest ++ c) (tree ++ c).
Proof.
  intros n rest tree J Eg c.
  assert (Hn : In n tree) by (apply (bfs_frontier J); left; reflexivity).
  destruct (bfs_levels J n Hn) as [Hln Hbn].
  assert (Hmin : forall a, In a (n :: rest) -> (level n <= level a)%nat).
  { intros a [<- | Ha]; [lia|].
    pose proof (bfs_sorted J) as S. inversion S as [| ? ? _ Hf]; subst.
    rewrite Forall_forall in Hf. apply Hf; exact Ha. }
  assert (Hc : forall a, In a c ->
             level a = S (level n)
             /\ Z.of_nat (level a) = manhattan s (coordinates a)
             /\ inBounds (coordinates a) m
             /\ (isGoal a = true <-> coordinates a = g)).
  { intros a Ha.
    pose proof (probeCoordinates_sound _ _ _ _ _ _ _ Ha) as (_ & _ & Hb & Hfresh).
    pose proof (candidate_depth _ _ _ _ _ _ Ha) as [_ Hp].
    apply probeCoordinates_In in Ha. destruct Ha as (Hs & _ & _ & Hbt).
    apply searchSpace_In in Hs. destruct Hs as (Hloc & Hg & _).
    assert (Hl : level a = S (level n)).
    { unfold level. rewrite Hp, length_app. simpl. lia. }
    split; [exact Hl | split; [| split; [exact Hb|]]].
    - destruct (manhattan_neighbour s Hloc) as [Hd | Hd]; [lia|].
      exfalso.
      assert (Hk : manhattan s (coordinates a) = Z.of_nat (Nat.pred (level n))).
      { pose proof (manhattan_nonneg s (coordinates a)). lia. }
      destruct (bfs_complete J Hb Hk) as [p [Hp' Ep]].
      { intros a' Ha'. apply Hmin in Ha'. lia. }
      assert (Ht : checkBacktrack (coordinates a) tree = true)
        by (apply checkBacktrack_true; exists p; tauto).
      congruence.
    - rewrite Hg. apply checkGoal_true. }
  constructor.
  - intros a Ha. apply in_app_iff in Ha. destruct Ha as [Ha | Ha].
    + exact (bfs_levels J a Ha).
    + destruct (Hc a Ha) as (_ & Hd & Hb & _). tauto.
  - destruct (bfs_root J) as [r [Hr Er]]. exists r.
    split; [apply in_app_iff; left; exact Hr | exact Er].
  - intros a Ha. apply in_app_iff in Ha. apply in_app_iff.
    destruct Ha as [Ha | Ha]; [left | right; exact Ha].
    apply (bfs_frontier J). right; exact Ha.
  - apply StronglySorted_app.
    + pose proof (bfs_sorted J) as S. inversion S; assumption.
    + apply StronglySorted_all. intros a b Ha Hb.
      destruct (Hc a Ha) as [-> _]. destruct (Hc b Hb) as [-> _]. lia.
    + intros a b Ha Hb. destruct (Hc b Hb) as [-> _].
      apply (bfs_window J); [left; reflexivity | right; exact Ha].
  - intros a b Ha Hb. apply in_app_iff in Ha, Hb.
    destruct Ha as [Ha | Ha]; destruct Hb as [Hb | Hb].
    + apply (bfs_window J); right; assumption.
    + destruct (Hc b Hb) as [-> _].
      assert (level n <= level a)%nat by (apply Hmin; right; exact Ha). lia.
    + destruct (Hc a Ha) as [-> _].
      assert (level b <= S (level n))%nat
        by (apply (bfs_window J); [left; reflexivity | right; exact Hb]).
      lia.
    + destruct (Hc a Ha) as [-> _]. destruct (Hc b Hb) as [-> _]. lia.
  - intros a Ha. apply in_app_iff in Ha. destruct Ha as [Ha | Ha].
    + assert (Hgrow : closedIn m tree a -> closedIn m (tree ++ c) a).
      { intros Hcl c0 H0 Hb0. destruct (Hcl c0 H0 Hb0) as [p [Hp Ep]].
        exists p. split; [apply in_app_iff; left; exact Hp | exact Ep]. }
      destruct (bfs_closed J a Ha) as [[<- | Hr] | Hcl].
      * right. intros c0 H0 Hb0.
        destruct (checkBacktrack c0 tree) eqn:Ebt.
        -- apply checkBacktrack_true in Ebt. destruct Ebt as [p [Hp Ep]].
           exists p. split; [apply in_app_iff; left; exact Hp | exact Ep].
        -- destruct (probeCoordinates_open (previousCoordinates n ++ [n]) g
                       tree H0 Hb0 Ebt) as [node [Hnode Enode]].
           exists node. split; [apply in_app_iff; right; exact Hnode | exact Enode].
      * left. apply in_app_iff. left; exact Hr.
      * right. apply Hgrow; exact Hcl.
    + left. apply in_app_iff. right; exact Ha.
  - intros a Ha. apply in_app_iff in Ha. destruct Ha as [Ha | Ha].
    + apply (bfs_goal J). right; exact Ha.
    + apply (Hc a Ha).
  - intros a Ha Eg'. apply in_app_iff in Ha. apply in_app_iff.
    destruct Ha as [Ha | Ha]; [| right; exact Ha].
    destruct (bfs_waiting J a Ha Eg') as [<- | Hr]; [| left; exact Hr].
    apply (bfs_goal J) in Eg'; [congruence | left; reflexivity].
Qed.

End BfsOpen.

(** On every open maze with start and goal in bounds and apart from each
    other, breadth-first search finds the goal by a path whose length is the
    Manhattan distance between the two. *)
Lemma bfs_open_maze : forall problem startNode goal,
  walls problem = [] ->
  inBounds startNode (mazeSize problem) ->
  inBounds goal (mazeSize problem) ->
  startNode <> goal ->
  exists sol,
    findSolution problem startNode goal "BFS" = Returns sol
    /\ status sol = found
    /\ Z.of_nat (length (path sol)) = manhattan startNode goal.
Proof.
  intros problem s g Hw Hs Hg Hsg.
  destruct (bfs_returns problem g (getInitialNode s g)) as [sol Hret].
  exists sol. split; [exact Hret|].
  unfold bfs in Hret. rewrite bfs_loop_skeleton, Hw in Hret.
  apply (skeleton_rule (mazeSize problem) [] g bfsDiscipline
           (BfsInvariant (mazeSize problem) s g)
           (fun sol => status sol = found
                       /\ Z.of_nat (length (path sol)) = manhattan s g))
    with (fuel := searchFuel (mazeSize problem))
         (frontier := [getInitialNode s g]) (tree := [getInitialNode s g]);
    [ | | | apply bfs_invariant_init; assumption | exact Hret].
  - intros frontier tree J Et. apply shift_take_none in Et. subst frontier.
    exfalso.
    destruct (@bfs_complete (mazeSize problem) s g Hs [] tree J
                (Z.to_nat (manhattan s g)) g Hg) as [p [Hp Ep]].
    + pose proof (manhattan_nonneg s g). lia.
    + intros n [].
    + exact (bfs_waiting J p Hp Ep).
  - intros frontier tree n rest J Et Eg.
    destruct frontier as [| n' rest']; [discriminate|].
    injection Et as -> ->. split; [reflexivity|]. simpl.
    rewrite length_map, tail_length, length_app. simpl.
    rewrite Nat.add_1_r. simpl.
    assert (Hn : In n tree) by (apply (bfs_frontier J); left; reflexivity).
    destruct (bfs_levels J n Hn) as [Hl _].
    apply (bfs_goal J) in Eg; [| left; reflexivity].
    rewrite <- Eg. exact Hl.
  - intros frontier tree n rest J Et Eg.
    destruct frontier as [| n' rest']; [discriminate|].
    injection Et as -> ->. cbn [arrange put bfsDiscipline].
    apply bfs_invariant_step; assumption.
Qed.

(** * The multi-goal run visits every goal once *)

Lemma cloneDeep_ids : forall goals,
  map goalId (cloneDeep goals) = seq 0 (length goals).
Proof.
  intros goals. unfold cloneDeep. generalize 0%nat.
  induction goals as [| g goals IH]; intros start; simpl; [reflexivity|].
  rewrite IH. reflexivity.
Qed.

Lemma cloneDeep_length : forall goals,
  length (cloneDeep goals) = length goals.
Proof.
  intros goals. rewrite <- (length_map goalId), cloneDeep_ids, length_seq.
  reflexivity.
Qed.

Lemma mapFindSolution_goals : forall problem startNode searchMethod goalList,
  In searchMethod strategyNames ->
  exists solutions,
    mapFindSolution problem startNode searchMethod goalList = Returns solutions
    /\ map goal_ solutions = goalList.
Proof.
  intros problem startNode searchMethod goalList Hm.
  induction goalList as [| goal rest IH]; simpl.
  - exists []. split; reflexivity.
  - destruct (findSolution_named problem startNode (goalCoordinate goal) Hm)
      as [s ->].
    destruct IH as [solutions [-> E]].
    eexists. split; [reflexivity|]. simpl. rewrite E. reflexivity.
Qed.

Lemma filter_all : forall (A : Type) (f : A -> bool) l,
  (forall a, In a l -> f a = true) -> filter f l = l.
Proof.
  induction l as [| a l IH]; intros H; simpl; [reflexivity|].
  rewrite (H a (or_introl eq_refl)), IH; [reflexivity|].
  intros b Hb. apply H. right; exact Hb.
Qed.

(** Filtering by identity takes exactly the chosen goal off the list. *)
Lemma filter_goal_removed : forall goalList chosen,
  NoDup (map goalId goalList) ->
  In chosen goalList ->
  let rest :=
    filter (fun goal => negb (Nat.eqb (goalId goal) (goalId chosen)))
           goalList in
  length goalList = S (length rest) /\ NoDup (map goalId rest).
Proof.
  induction goalList as [| a l IH]; intros chosen Hnd Hin; [contradiction|].
  simpl in Hnd. inversion Hnd as [| ? ? Hna Hnl]; subst.
  simpl. destruct Hin as [<- | Hin].
  - rewrite Nat.eqb_refl. simpl. rewrite filter_all; [split; [reflexivity | exact Hnl]|].
    intros b Hb. apply negb_true_iff. apply Nat.eqb_neq. intros E.
    apply Hna. rewrite <- E. apply in_map. exact Hb.
  - destruct (IH chosen Hnl Hin) as [Hlen Hnd'].
    destruct (Nat.eqb (goalId a) (goalId chosen)) eqn:E.
    + exfalso. apply Nat.eqb_eq in E. apply Hna. rewrite E.
      apply in_map. exact Hin.
    + simpl. split; [rewrite Hlen; reflexivity|].
      constructor; [| exact Hnd'].
      intros Hc. apply Hna. apply in_map_iff in Hc.
      destruct Hc as [b [Eb Hb]]. apply filter_In in Hb.
      rewrite <- Eb. apply in_map. tauto.
Qed.

Lemma solutionPath_loop_total :
  forall problem searchMethod,
    In searchMethod strategyNames ->
    forall fuel goalList startNode solutionPath,
      NoDup (map goalId goalList) ->
      (length goalList <= fuel)%nat ->
      exists legs,
        solutionPath_loop fuel problem searchMethod goalList startNode
                          solutionPath
        = Returns (solutionPath ++ legs)
        /\ length legs = length goalList.
Proof.
  intros problem searchMethod Hm.
  induction fuel as [| fuel IH]; intros goalList startNode acc Hnd Hlen.
  - destruct goalList; [| simpl in Hlen; lia].
    exists []. rewrite app_nil_r. split; reflexivity.
  - destruct goalList as [| g0 gl].
    + exists []. rewrite app_nil_r. split; reflexivity.
    + cbn [solutionPath_loop]. set (goalList := g0 :: gl) in *.
      destruct (mapFindSolution_goals problem startNode goalList Hm)
        as [solutions [-> Egoals]].
      set (sorted := JsArray.sort _ solutions).
      assert (HP : Permutation sorted solutions) by apply sort_perm.
      pose proof (pop_spec sorted) as Hpop.
      destruct (JsArray.pop sorted) as [[solution others]|].
      * assert (Hin : In (goal_ solution) goalList).
        { rewrite <- Egoals. apply in_map.
          apply (Permutation_in _ HP). rewrite Hpop.
          apply in_app_iff. right; left; reflexivity. }
        destruct (@filter_goal_removed goalList (goal_ solution) Hnd Hin)
          as [Hl Hnd'].
        destruct (IH _ (goalCoordinate (goal_ solution))
                     (acc ++ [solution_ solution]) Hnd') as [legs [-> Hlegs]];
          [lia|].
        exists (solution_ solution :: legs).
        rewrite <- app_assoc. split; [reflexivity|].
        change (S (length legs) = length goalList).
        rewrite Hl, Hlegs. reflexivity.
      * exfalso. apply Permutation_length in HP. rewrite Hpop in HP.
        rewrite <- (length_map goal_ solutions), Egoals in HP. discriminate.
Qed.

(** For each of the six strategies the multi-goal search returns a
    solution; it runs one leg per goal of the input, and its path and tree
    are the legs' paths and trees strung together in visiting order. *)
Lemma searchAllGoals_visits_all : forall problem searchMethod,
  In searchMethod strategyNames ->
  exists s legs,
    searchAllGoals problem searchMethod = Returns s
    /\ solutionPath problem searchMethod = Returns legs
    /\ length legs = length (goals problem)
    /\ path s = concat (map path legs)
    /\ searchTree s = concat (map searchTree legs)
    /\ (status s = found <-> goals problem <> []).
Proof.
  intros problem searchMethod Hm.
  destruct (@solutionPath_loop_total problem searchMethod Hm
              (length (cloneDeep (goals problem))) (cloneDeep (goals problem))
              (agentLocation problem) [])
    as [legs [Hret Hlen]].
  - rewrite cloneDeep_ids. apply seq_NoDup.
  - apply le_n.
  - simpl in Hret. rewrite cloneDeep_length in Hlen.
    exists (finalSolution legs), legs.
    unfold searchAllGoals, solutionPath. rewrite Hret.
    destruct (finalSolution_concat legs) as (Hp & Ht & Hs).
    repeat split; try assumption.
    + intros H E. apply Hs in H. apply H.
      destruct legs; [reflexivity|]. rewrite E in Hlen. discriminate.
    + intros H. apply Hs. intros E. subst legs. apply H.
      destruct (goals problem); [reflexivity | discriminate].
Qed.

(** * A* and bidirectional A* on small open mazes *)

Lemma agreeOnSmallMazes_true : agreeOnSmallMazes = true.
Proof. vm_compute. reflexivity. Qed.

(** On every open maze of at most 5x5 cells, with start and goal in bounds
    and apart from each other, A* and bidirectional A* both report found and
    return paths of the same length, the Manhattan distance. *)
Lemma aStar_customTwo_agree_small : forall rows columns s g,
  1 <= rows <= 5 -> 1 <= columns <= 5 ->
  inBounds s {| rows := rows; columns := columns |} ->
  inBounds g {| rows := rows; columns := columns |} ->
  s <> g ->
  exists l n1 n2,
    report (searchMaze (openMaze rows columns s g) "AS" false)
    = Some (found, l, n1)
    /\ report (searchMaze (openMaze rows columns s g) "CUS2" false)
       = Some (found, l, n2)
    /\ Z.of_nat l = manhattan s g.
Proof.
  intros rows columns s g Hr Hc Hs Hg Hsg.
  pose proof agreeOnSmallMazes_true as H. unfold agreeOnSmallMazes in H.
  assert (Hin : forall z, 1 <= z <= 5 -> In z smallSizes).
  { intros z Hz. unfold smallSizes. simpl.
    assert (z = 1 \/ z = 2 \/ z = 3 \/ z = 4 \/ z = 5) by lia.
    intuition auto. }
  rewrite forallb_forall in H. specialize (H rows (Hin rows Hr)).
  rewrite forallb_forall in H. specialize (H columns (Hin columns Hc)).
  cbv zeta in H.
  rewrite forallb_forall in H. specialize (H s (cells_In Hs)).
  rewrite forallb_forall in H. specialize (H g (cells_In Hg)).
  apply orb_prop in H. destruct H as [H | H].
  - apply checkGoal_true in H. contradiction.
  - unfold agreeOn in H. cbv zeta in H.
    destruct (report (searchMaze (openMaze rows columns s g) "AS" false))
      as [[[[|] la] na]|]; try discriminate.
    destruct (report (searchMaze (openMaze rows columns s g) "CUS2" false))
      as [[[[|] lb] nb]|]; try discriminate.
    apply andb_prop in H. destruct H as [H1 H2].
    apply Nat.eqb_eq in H1, H2. subst lb.
    exists la, na, nb. repeat split.
    rewrite H2. apply Z2Nat.id. apply manhattan_nonneg.
Qed.

(** * The expansion engine: which candidates, in which order *)

Lemma isFree_true : forall mazeSize walls c,
  isFree mazeSize walls c = true <->
  checkWall c walls = false /\ checkOutOfBounds c mazeSize = false.
Proof.
  intros. unfold isFree. rewrite negb_true_iff, orb_false_iff. tauto.
Qed.

Lemma candidate_cell : forall loc path m g w t node,
  In node (probeCoordinates loc path m g w t) ->
  In (coordinates node) (searchLocations loc)
  /\ isFree m w (coordinates node) = true
  /\ checkBacktrack (coordinates node) t = false.
Proof.
  intros loc path m g w t node Hin. rewrite isFree_true.
  apply probeCoordinates_In in Hin.
  destruct Hin as (Hs & Hw & Ho & Hb). apply searchSpace_In in Hs. tauto.
Qed.

Lemma neighbour_candidate : forall loc path m g w t c,
  In c (searchLocations loc) ->
  isFree m w c = true ->
  checkBacktrack c t = false ->
  exists node,
    In node (probeCoordinates loc path m g w t) /\ coordinates node = c.
Proof.
  intros loc path m g w t c Hc Hf Hb. apply isFree_true in Hf.
  assert (Hs : exists node, In node (searchSpace loc path g)
                            /\ coordinates node = c).
  { unfold searchSpace. simpl in Hc |- *.
    destruct Hc as [<- | [<- | [<- | [<- | []]]]].
    - eexists; split; [left; reflexivity | reflexivity].
    - eexists; split; [right; left; reflexivity | reflexivity].
    - eexists; split; [right; right; left; reflexivity | reflexivity].
    - eexists; split; [right; right; right; left; reflexivity | reflexivity]. }
  destruct Hs as [node [Hin <-]]. exists node. split; [|reflexivity].
  apply probeCoordinates_In. tauto.
Qed.

(** The candidates of [probeCoordinates] stand on exactly the neighbours of
    the current location that are free and not yet in the tree: none is
    left out. *)
Theorem probeCoordinates_exact :
  forall loc path mazeSize goal walls searchTree c,
    (exists node,
        In node (probeCoordinates loc path mazeSize goal walls searchTree)
        /\ coordinates node = c)
    <-> In c (searchLocations loc)
        /\ isFree mazeSize walls c = true
        /\ checkBacktrack c searchTree = false.
Proof.
  intros loc path m g w t c. split.
  - intros [node [Hin <-]]. eapply candidate_cell; exact Hin.
  - intros (Hc & Hf & Hb). apply neighbour_candidate; assumption.
Qed.

Lemma searchSpace_move : forall loc path goal node,
  In node (searchSpace loc path goal) ->
  move (direction node) loc = Some (coordinates node).
Proof.
  intros loc path goal node H. unfold searchSpace in H. simpl in H.
  destruct H as [H | [H | [H | [H | []]]]]; subst node; reflexivity.
Qed.

Lemma candidate_move : forall loc path m g w t node,
  In node (probeCoordinates loc path m g w t) ->
  move (direction node) loc = Some (coordinates node).
Proof.
  intros loc path m g w t node H. apply probeCoordinates_In in H.
  apply searchSpace_move with (path := path) (goal := g). tauto.
Qed.

Lemma filter_StronglySorted : forall (A : Type) (R : A -> A -> Prop) f l,
  StronglySorted R l -> StronglySorted R (filter f l).
Proof.
  induction l as [| a l IH]; simpl; intros H; [constructor|].
  inversion H as [| ? ? Hs Hf]; subst.
  destruct (f a); [| auto]. constructor; [auto|].
  rewrite Forall_forall in *. intros b Hb. apply Hf.
  apply filter_In in Hb. tauto.
Qed.

(** The label of a candidate is the move that leads from the current
    location to the candidate's cell, and the candidates are listed in
    compass order up, left, down, right -- so there are at most four, no
    two with the same label. *)
Theorem probeCoordinates_compass :
  forall loc path mazeSize goal walls searchTree,
    let candidates :=
      probeCoordinates loc path mazeSize goal walls searchTree in
    (forall node, In node candidates ->
                  move (direction node) loc = Some (coordinates node))
    /\ StronglySorted
         (fun a b => (compassRank (direction a) < compassRank (direction b))%nat)
         candidates
    /\ (length candidates <= 4)%nat.
Proof.
  intros loc path m g w t candidates. subst candidates. split; [| split].
  - intros node H. eapply candidate_move; exact H.
  - unfold probeCoordinates. apply filter_StronglySorted.
    unfold searchSpace. simpl.
    repeat constructor; simpl; lia.
  - unfold probeCoordinates.
    etransitivity; [apply filter_length_le|]. reflexivity.
Qed.

(** * Walls *)

Lemma inRange_true : forall n s e,
  Lodash.inRange n s e = true <-> Z.min s e <= n < Z.max s e.
Proof.
  intros. unfold Lodash.inRange.
  rewrite andb_true_iff, Z.leb_le, Z.ltb_lt. tauto.
Qed.

(** [checkWall] agrees with the rectangle reading of a wall -- anchor
    inclusive, anchor plus extent exclusive -- whenever no wall has a
    negative extent; a wall with a zero extent blocks nothing.  (For a
    negative extent lodash's [inRange] swaps the bounds, and the wall blocks
    the cells before its anchor.) *)
Theorem checkWall_rectangles : forall c walls,
  (forall w, In w walls -> 0 <= wall_columns w /\ 0 <= wall_rows w) ->
  (checkWall c walls = true <-> exists w, In w walls /\ insideWall c w)
  /\ (forall w, In w walls ->
                wall_columns w = 0 \/ wall_rows w = 0 -> ~ insideWall c w).
Proof.
  intros c walls Hpos. split.
  - unfold checkWall. rewrite existsb_exists. split.
    + intros [w [Hin H]]. exists w. split; [exact Hin|].
      apply andb_prop in H. destruct H as [Hx Hy].
      apply inRange_true in Hx, Hy. destruct (Hpos w Hin).
      unfold insideWall. lia.
    + intros [w [Hin [Hx Hy]]]. exists w. split; [exact Hin|].
      rewrite !inRange_spec; auto.
  - intros w Hin Hz [Hx Hy]. lia.
Qed.

Lemma checkWall_rectangles_witness :
  checkWall Example.centre [Example.wallAbove] = true <->
  exists w, In w [Example.wallAbove] /\ insideWall Example.centre w.
Proof.
  apply (checkWall_rectangles Example.centre [Example.wallAbove]).
  intros w [<- | []]. simpl. lia.
Defined.

(** A wall with negative extents is not ignored: lodash's [inRange] swaps
    its bounds, so the wall blocks the cells before its anchor, from anchor
    plus extent (inclusive) to the anchor (exclusive), and not the anchor
    cell itself. *)
Theorem checkWall_negative_extent : forall c w,
  wall_columns w < 0 -> wall_rows w < 0 ->
  (checkWall c [w] = true <->
   wall_x w + wall_columns w <= x c < wall_x w
   /\ wall_y w + wall_rows w <= y c < wall_y w).
Proof.
  intros c w Hc Hr. unfold checkWall. simpl.
  rewrite orb_false_r, andb_true_iff, !inRange_true. lia.
Qed.

Lemma checkWall_negative_extent_witness :
  checkWall {| x := 2; y := 2 |}
            [{| wall_x := 3; wall_y := 3;
                wall_columns := -2; wall_rows := -1 |}] = true <->
  3 + -2 <= 2 < 3 /\ 3 + -1 <= 2 < 3.
Proof.
  apply (checkWall_negative_extent
           {| x := 2; y := 2 |}
           {| wall_x := 3; wall_y := 3;
              wall_columns := -2; wall_rows := -1 |}); simpl; lia.
Defined.

(** * Nodes along a chain of expansions *)

Lemma manhattan_zero : forall a b, manhattan a b = 0 <-> a = b.
Proof.
  intros a b. unfold manhattan. split.
  - intros H. apply coordinate_eq; lia.
  - intros ->. lia.
Qed.

(** Every node built for a goal -- the root or a candidate probed along a
    chain from it -- has [depth] and [nodesTravelled] equal to the number of
    its ancestors, is marked as goal only on the goal cell, has
    [fromCurrentNode] zero exactly on the goal cell, and has a
    [fromStartingNode] that is at least its [fromCurrentNode]. *)
Theorem Built_fields : forall goal node,
  Built goal node ->
  depth node = Z.of_nat (length (previousCoordinates node))
  /\ nodesTravelled (distanceToGoal node) = depth node
  /\ (isGoal node = true -> coordinates node = goal)
  /\ (fromCurrentNode (distanceToGoal node) = 0 <-> coordinates node = goal)
  /\ 0 <= fromCurrentNode (distanceToGoal node)
     <= fromStartingNode (distanceToGoal node).
Proof.
  intros goal node HB.
  induction HB as [loc | parent m walls t node HB IH Hin].
  - simpl. repeat split; try discriminate; try lia.
    + intros H. apply coordinate_eq; lia.
    + intros <-. lia.
  - destruct IH as (Hd & _ & _ & _ & Hpos).
    pose proof (candidate_depth _ _ _ _ _ _ Hin) as [Hdepth Hprev].
    apply probeCoordinates_In in Hin. destruct Hin as (Hs & _).
    apply searchSpace_In in Hs. destruct Hs as (_ & Hg & _ & Hcost & _).
    destruct (calculateManhattan_fields (coordinates node)
                (previousCoordinates parent ++ [parent]) goal)
      as (Hc & Hf & Hn).
    rewrite lastElement_app in Hf. cbn [Lodash.get] in Hf.
    pose proof (manhattan_nonneg (coordinates node) goal) as Hm.
    rewrite Hcost, Hc, Hf, Hn, Hdepth, Hprev, length_app. simpl.
    repeat split; try lia.
    + intros E. rewrite Hg in E. apply checkGoal_true in E. exact E.
    + apply manhattan_zero.
    + apply manhattan_zero.
Qed.

Lemma Built_fields_witness :
  depth Example.left = Z.of_nat (length (previousCoordinates Example.left))
  /\ nodesTravelled (distanceToGoal Example.left) = depth Example.left
  /\ (isGoal Example.left = true -> coordinates Example.left = Example.goal)
  /\ (fromCurrentNode (distanceToGoal Example.left) = 0
      <-> coordinates Example.left = Example.goal)
  /\ 0 <= fromCurrentNode (distanceToGoal Example.left)
     <= fromStartingNode (distanceToGoal Example.left).
Proof.
  apply (Built_fields (goal := Example.goal)).
  eapply Built_candidate with (parent := Example.root)
                              (mazeSize := Example.maze)
                              (walls := [Example.wallAbove])
                              (searchTree := [Example.root]);
    [apply Built_root | vm_compute; left; reflexivity].
Defined.

(** * What the single-frontier strategies keep true *)

Lemma findSolution_skeleton : forall problem startNode goal searchMethod,
  In searchMethod singleFrontierNames ->
  exists d,
    Lawful d
    /\ findSolution problem startNode goal searchMethod
       = skeleton_loop (mazeSize problem) (walls problem) goal d
                       (searchFuel (mazeSize problem))
                       [getInitialNode startNode goal]
                       [getInitialNode startNode goal].
Proof.
  intros problem startNode goal searchMethod H.
  unfold singleFrontierNames in H. simpl in H.
  destruct H as [<- | [<- | [<- | [<- | [<- | []]]]]];
    unfold findSolution;
    cbn [selectAlgorithm ownProperty algorithmMap String.eqb Ascii.eqb
                         Bool.eqb].
  - exists dfsDiscipline. split; [exact _|]. apply dfs_loop_skeleton.
  - exists bfsDiscipline. split; [exact _|]. apply bfs_loop_skeleton.
  - exists gbfsDiscipline. split; [exact _|]. apply gbfs_loop_skeleton.
  - exists aStarDiscipline. split; [exact _|]. apply aStar_loop_skeleton.
  - exists customOneDiscipline. split; [exact _|].
    apply customOne_loop_skeleton.
Qed.

Lemma lastCell_app : forall c l a, lastCell c (l ++ [a]) = coordinates a.
Proof. intros. unfold lastCell. rewrite lastElement_app. reflexivity. Qed.

Lemma lastElement_cons : forall (A : Type) (b : A) l,
  exists a, Lodash.lastElement (b :: l) = Some a.
Proof.
  intros A b l. revert b. induction l as [| b' l IH]; intros b.
  - exists b. reflexivity.
  - destruct (IH b') as [a E]. exists a. exact E.
Qed.

Lemma lastCell_cons : forall c b l,
  lastCell c (b :: l) = lastCell (coordinates b) l.
Proof.
  intros c b l. unfold lastCell. destruct l as [| b' l']; [reflexivity|].
  change (Lodash.lastElement (b :: b' :: l'))
    with (Lodash.lastElement (b' :: l')).
  destruct (lastElement_cons b' l') as [a ->]. reflexivity.
Qed.

Lemma follows_app : forall m w l c a,
  follows m w c (l ++ [a]) <->
  follows m w c l
  /\ move (direction a) (lastCell c l) = Some (coordinates a)
  /\ isFree m w (coordinates a) = true.
Proof.
  intros m w. induction l as [| b l IH]; intros c a; simpl.
  - unfold lastCell. simpl. tauto.
  - rewrite IH, lastCell_cons. tauto.
Qed.

Lemma lastCell_chain : forall (root : SearchNode) rest l p,
  l ++ [p] = root :: rest ->
  lastCell (coordinates root) rest = coordinates p.
Proof.
  intros root rest l p E.
  assert (H : Lodash.lastElement (root :: rest) = Some p)
    by (rewrite <- E; apply lastElement_app).
  destruct rest as [| b rest'].
  - simpl in H. injection H as <-. reflexivity.
  - change (Lodash.lastElement (root :: b :: rest'))
      with (Lodash.lastElement (b :: rest')) in H.
    unfold lastCell. rewrite H. reflexivity.
Qed.

Lemma follows_route : forall m w l c,
  follows m w c l ->
  route m w c (map direction l) = Some (lastCell c l).
Proof.
  intros m w. induction l as [| n l IH]; intros c H; simpl.
  - reflexivity.
  - destruct H as (Hm & Hf & Hrest).
    rewrite Hm, Hf, (IH _ Hrest), lastCell_cons. reflexivity.
Qed.

Section InvariantProofs.

Variable m : MazeSize.
Variable w : list Wall.
Variable start : Coordinate.
Variable g : Coordinate.
Variable d : Discipline.
Context {L : Lawful d}.

Lemma invariant_init :
  SearchInvariant m w start g [getInitialNode start g]
                  [getInitialNode start g].
Proof.
  constructor.
  - exists []. split; [reflexivity | intros a []].
  - repeat constructor. intros [].
  - apply incl_refl.
  - intros n [<- | []]. exists []. split; [reflexivity | exact I].
  - intros n [<- | []]. discriminate.
Qed.

Lemma invariant_step : forall frontier tree n rest,
  SearchInvariant m w start g frontier tree ->
  take d frontier = Some (n, rest) ->
  let c := arrange d (probeCoordinates (coordinates n)
                        (previousCoordinates n ++ [n]) m g w tree) in
  SearchInvariant m w start g (put d rest c) (tree ++ c).
Proof.
  intros frontier tree n rest J Et c.
  assert (Hfr : forall a, In a (n :: rest) -> In a tree).
  { intros a Ha. apply (inv_frontier J).
    apply (Permutation_in _ (Permutation_sym (take_some _ Et))). exact Ha. }
  assert (Hn : In n tree) by (apply Hfr; left; reflexivity).
  assert (Hc : forall a, In a c ->
             In a (probeCoordinates (coordinates n)
                     (previousCoordinates n ++ [n]) m g w tree)).
  { intros a Ha. apply (Permutation_in _ (arrange_perm _)) in Ha. exact Ha. }
  constructor.
  - destruct (inv_tree J) as [added [-> Hfree]].
    exists (added ++ c). split; [reflexivity|].
    intros a Ha. apply in_app_iff in Ha. destruct Ha as [Ha | Ha]; [auto|].
    apply Hc in Ha. apply probeCoordinates_In in Ha.
    apply isFree_true. tauto.
  - rewrite map_app. apply NoDup_app; [exact (inv_nodup J) | |].
    + eapply Permutation_NoDup;
        [apply Permutation_map; symmetry; apply arrange_perm|].
      apply probeCoordinates_NoDup.
    + intros cell Ha Hb.
      apply in_map_iff in Ha. destruct Ha as [p [Ep Hp]].
      apply in_map_iff in Hb. destruct Hb as [a [Ea Ha]].
      apply Hc in Ha.
      pose proof (probeCoordinates_sound _ _ _ _ _ _ _ Ha)
        as (_ & _ & _ & Hfresh).
      apply (Hfresh p Hp). unfold sameCell. rewrite Ep, Ea. tauto.
  - intros a Ha. apply put_incl in Ha. apply in_app_iff in Ha.
    apply in_app_iff. destruct Ha as [Ha | Ha]; [left | right; exact Ha].
    apply Hfr. right; exact Ha.
  - intros a Ha. apply in_app_iff in Ha. destruct Ha as [Ha | Ha].
    + exact (inv_chain J a Ha).
    + apply Hc in Ha.
      destruct (inv_chain J n Hn) as [restn [En Hfollow]].
      pose proof (candidate_depth _ _ _ _ _ _ Ha) as [_ Hprev].
      pose proof (candidate_move _ _ _ _ _ _ _ Ha) as Hm.
      apply probeCoordinates_In in Ha.
      exists (restn ++ [a]). split.
      * rewrite Hprev, En. reflexivity.
      * apply follows_app. split; [exact Hfollow|].
        split; [| apply isFree_true; tauto].
        pose proof (@lastCell_chain _ _ _ _ En) as Hl.
        cbn [coordinates getInitialNode] in Hl. rewrite Hl. exact Hm.
  - intros a Ha Eg. apply in_app_iff in Ha. destruct Ha as [Ha | Ha].
    + exact (inv_goal J a Ha Eg).
    + apply Hc in Ha. apply probeCoordinates_In in Ha.
      destruct Ha as (Hs & _). apply searchSpace_In in Hs.
      destruct Hs as (_ & Hg & _). rewrite Hg in Eg.
      apply checkGoal_true in Eg. exact Eg.
Qed.

(** Whatever the loop returns, the invariant holds of the returned tree;
    a found path is the chain of the goal node, a failure has no path. *)
Lemma skeleton_invariant : forall fuel frontier tree s,
  SearchInvariant m w start g frontier tree ->
  skeleton_loop m w g d fuel frontier tree = Returns s ->
  (exists frontier', SearchInvariant m w start g frontier' (searchTree s))
  /\ match status s with
     | found =>
       exists n, In n (searchTree s) /\ isGoal n = true
                 /\ path s = map treeNode
                                 (Lodash.tail (previousCoordinates n ++ [n]))
     | fail => path s = []
     end.
Proof.
  intros fuel frontier tree s J H.
  apply (skeleton_rule m w g d
           (SearchInvariant m w start g)
           (fun s =>
              (exists frontier',
                  SearchInvariant m w start g frontier' (searchTree s))
              /\ match status s with
                 | found =>
                   exists n, In n (searchTree s) /\ isGoal n = true
                             /\ path s
                                = map treeNode
                                      (Lodash.tail
                                         (previousCoordinates n ++ [n]))
                 | fail => path s = []
                 end))
    with (fuel := fuel) (frontier := frontier) (tree := tree);
    [ | | | exact J | exact H].
  - intros fr t J' _. split; [exists fr; exact J' | reflexivity].
  - intros fr t n rest J' Et Eg. split; [exists fr; exact J'|]. simpl.
    exists n. split; [| split; [exact Eg | reflexivity]].
    apply (inv_frontier J').
    apply (Permutation_in _ (Permutation_sym (take_some _ Et))).
    left; reflexivity.
  - intros fr t n rest J' Et _ c. eapply invariant_step; eassumption.
Qed.

End InvariantProofs.

Lemma findSolution_invariant : forall problem startNode goal searchMethod s,
  In searchMethod singleFrontierNames ->
  findSolution problem startNode goal searchMethod = Returns s ->
  (exists frontier,
      SearchInvariant (mazeSize problem) (walls problem) startNode goal
                      frontier (searchTree s))
  /\ match status s with
     | found =>
       exists n, In n (searchTree s) /\ isGoal n = true
                 /\ path s = map treeNode
                                 (Lodash.tail (previousCoordinates n ++ [n]))
     | fail => path s = []
     end.
Proof.
  intros problem startNode goal searchMethod s Hm Hret.
  destruct (findSolution_skeleton problem startNode goal Hm) as [d [L E]].
  rewrite E in Hret.
  eapply (@skeleton_invariant _ _ startNode _ d L); [| exact Hret].
  apply invariant_init.
Qed.

(** In the tree that a single-frontier strategy returns the root comes
    first, every other node stands on a free cell, and no two nodes stand on
    the same cell; so the tree has at most one node per cell of the maze,
    and the root. *)
Theorem searchTree_distinct_cells :
  forall problem startNode goal searchMethod s,
    In searchMethod singleFrontierNames ->
    findSolution problem startNode goal searchMethod = Returns s ->
    (exists added,
        searchTree s = getInitialNode startNode goal :: added
        /\ forall a, In a added ->
             isFree (mazeSize problem) (walls problem) (coordinates a) = true)
    /\ NoDup (map coordinates (searchTree s))
    /\ (length (searchTree s)
        <= S (Z.to_nat (columns (mazeSize problem))
              * Z.to_nat (rows (mazeSize problem))))%nat.
Proof.
  intros problem startNode goal searchMethod s Hm Hret.
  destruct (findSolution_invariant _ _ _ Hm Hret) as [[fr J] _].
  split; [exact (inv_tree J) | split; [exact (inv_nodup J)|]].
  rewrite <- cells_length. apply TreeOk_length.
  destruct (inv_tree J) as [added [E Hfree]].
  exists (getInitialNode startNode goal), added. split; [exact E|].
  pose proof (inv_nodup J) as Hnd. rewrite E in Hnd. simpl in Hnd.
  inversion Hnd as [| ? ? _ Hnd']; subst. split; [exact Hnd'|].
  intros c Hc. apply in_map_iff in Hc. destruct Hc as [a [<- Ha]].
  apply cells_In. apply checkOutOfBounds_false.
  apply Hfree in Ha. apply isFree_true in Ha. tauto.
Qed.

Lemma searchTree_distinct_cells_witness :
  NoDup (map coordinates (searchTree Tiny.solution)).
Proof.
  apply (searchTree_distinct_cells Tiny.problem Tiny.start Tiny.goal
                                   (searchMethod := "BFS")).
  - vm_compute. tauto.
  - vm_compute. reflexivity.
Defined.

(** The path of a found solution is a chain of legal moves from the start
    that ends on the goal. *)
Lemma found_follows :
  forall problem startNode goal searchMethod s,
    In searchMethod singleFrontierNames ->
    findSolution problem startNode goal searchMethod = Returns s ->
    status s = found ->
    exists b rest,
      path s = map treeNode (b :: rest)
      /\ follows (mazeSize problem) (walls problem) startNode (b :: rest)
      /\ lastCell startNode (b :: rest) = goal.
Proof.
  intros problem startNode goal searchMethod s Hm Hret Hf.
  destruct (findSolution_invariant _ _ _ Hm Hret) as [[fr J] Hres].
  rewrite Hf in Hres.
  destruct Hres as (n & Hn & Eg & Ep).
  destruct (inv_chain J n Hn) as [rest [En Hfollow]].
  rewrite En in Ep. simpl in Ep.
  pose proof (@lastCell_chain _ _ _ _ En) as Hl.
  cbn [coordinates getInitialNode] in Hl.
  rewrite (inv_goal J n Hn Eg) in Hl.
  destruct rest as [| b rest'].
  - exfalso. destruct (previousCoordinates n) as [| p l].
    + simpl in En. injection En as ->. discriminate.
    + simpl in En. injection En as _ En. destruct l; discriminate.
  - exists b, rest'. split; [exact Ep | split; [exact Hfollow | exact Hl]].
Qed.

(** A found path of a single-frontier strategy is a route: following its
    direction labels from the start, through free cells only, leads to the
    goal, and it has at least one move.  A failure comes with an empty
    path. *)
Theorem found_path_is_route :
  forall problem startNode goal searchMethod s,
    In searchMethod singleFrontierNames ->
    findSolution problem startNode goal searchMethod = Returns s ->
    (status s = found ->
     route (mazeSize problem) (walls problem) startNode (labels s) = Some goal
     /\ path s <> [])
    /\ (status s = fail -> path s = []).
Proof.
  intros problem startNode goal searchMethod s Hm Hret. split.
  - intros Hf.
    destruct (found_follows _ _ _ Hm Hret Hf) as (b & rest & Ep & Hfol & Hl).
    unfold labels. rewrite Ep. split; [| discriminate].
    replace (map entryDirection (map treeNode (b :: rest)))
      with (map direction (b :: rest)) by (rewrite map_map; reflexivity).
    rewrite (follows_route _ _ _ _ Hfol), Hl. reflexivity.
  - intros Hf.
    destruct (findSolution_invariant _ _ _ Hm Hret) as [_ Hres].
    rewrite Hf in Hres. exact Hres.
Qed.

Lemma found_path_is_route_witness :
  route (mazeSize Tiny.problem) (walls Tiny.problem) Tiny.start
        (labels Tiny.solution) = Some Tiny.goal
  /\ path Tiny.solution <> [].
Proof.
  apply (found_path_is_route Tiny.problem Tiny.start Tiny.goal
                             (searchMethod := "DFS")).
  - vm_compute. tauto.
  - vm_compute. reflexivity.
  - reflexivity.
Defined.

(** * Found exactly when the goal can be reached *)

#[export] Instance dfs_exhaustive : Exhaustive dfsDiscipline.
Proof. constructor. intros rest c a H. exact H. Qed.

#[export] Instance bfs_exhaustive : Exhaustive bfsDiscipline.
Proof. constructor. intros rest c a H. exact H. Qed.

#[export] Instance gbfs_exhaustive : Exhaustive gbfsDiscipline.
Proof.
  constructor. intros rest c a H. simpl.
  apply (Permutation_in _ (Permutation_sym (sort_perm _ _))). exact H.
Qed.

#[export] Instance aStar_exhaustive : Exhaustive aStarDiscipline.
Proof.
  constructor. intros rest c a H. simpl.
  apply (Permutation_in _ (Permutation_sym (sort_perm _ _))). exact H.
Qed.

Lemma findSolution_exhaustive : forall problem startNode goal searchMethod,
  In searchMethod exhaustiveNames ->
  exists d,
    Lawful d /\ Exhaustive d
    /\ findSolution problem startNode goal searchMethod
       = skeleton_loop (mazeSize problem) (walls problem) goal d
                       (searchFuel (mazeSize problem))
                       [getInitialNode startNode goal]
                       [getInitialNode startNode goal].
Proof.
  intros problem startNode goal searchMethod H.
  unfold exhaustiveNames in H. simpl in H.
  destruct H as [<- | [<- | [<- | [<- | []]]]];
    unfold findSolution;
    cbn [selectAlgorithm ownProperty algorithmMap String.eqb Ascii.eqb
                         Bool.eqb].
  - exists dfsDiscipline.
    split; [exact _ | split; [exact _ | apply dfs_loop_skeleton]].
  - exists bfsDiscipline.
    split; [exact _ | split; [exact _ | apply bfs_loop_skeleton]].
  - exists gbfsDiscipline.
    split; [exact _ | split; [exact _ | apply gbfs_loop_skeleton]].
  - exists aStarDiscipline.
    split; [exact _ | split; [exact _ | apply aStar_loop_skeleton]].
Qed.

Lemma move_searchLocations : forall label c c',
  move label c = Some c' -> In c' (searchLocations c).
Proof.
  intros label c c' H. unfold move in H. unfold searchLocations.
  destruct (String.eqb label "up; "); [injection H as <-; simpl; auto|].
  destruct (String.eqb label "left; "); [injection H as <-; simpl; auto|].
  destruct (String.eqb label "down; "); [injection H as <-; simpl; auto|].
  destruct (String.eqb label "right; "); [injection H as <-; simpl; auto 6|].
  discriminate.
Qed.

Lemma route_Walk : forall m w start l k c c',
  Walk m w start k c ->
  route m w c l = Some c' ->
  Walk m w start (k + length l) c'.
Proof.
  intros m w start. induction l as [| label l IH]; intros k c c' HW H.
  - simpl in H. injection H as <-. rewrite Nat.add_0_r. exact HW.
  - simpl in H. destruct (move label c) as [c1|] eqn:Em; [|discriminate].
    destruct (isFree m w c1) eqn:Ef; [|discriminate].
    simpl. rewrite <- Nat.add_succ_comm. apply (IH (S k) c1); [| exact H].
    eapply Walk_step; [exact HW | | exact Ef].
    eapply move_searchLocations; exact Em.
Qed.

Section ClosureProofs.

Variable m : MazeSize.
Variable w : list Wall.
Variable start : Coordinate.
Variable g : Coordinate.
Variable d : Discipline.
Context {L : Lawful d}.
Context {E : Exhaustive d}.

Lemma closure_init :
  start <> g ->
  ClosureInvariant m w g [getInitialNode start g] [getInitialNode start g].
Proof.
  intros Hsg. constructor.
  - intros n Hn. left; exact Hn.
  - intros n [<- | []] Hc. simpl in Hc. contradiction.
Qed.

Lemma closure_step : forall frontier tree n rest,
  ClosureInvariant m w g frontier tree ->
  take d frontier = Some (n, rest) ->
  isGoal n = false ->
  let c := arrange d (probeCoordinates (coordinates n)
                        (previousCoordinates n ++ [n]) m g w tree) in
  ClosureInvariant m w g (put d rest c) (tree ++ c).
Proof.
  intros frontier tree n rest J Et Eg c.
  pose proof (take_some _ Et) as HP.
  assert (Hkeep : forall a, In a frontier -> a <> n -> In a (put d rest c)).
  { intros a Ha Hne. apply put_complete. apply in_app_iff. left.
    apply (Permutation_in _ HP) in Ha. destruct Ha as [<- | Ha];
      [contradiction | exact Ha]. }
  assert (Hnew : forall a, In a c -> In a (put d rest c)).
  { intros a Ha. apply put_complete. apply in_app_iff. right; exact Ha. }
  assert (Hgrow : forall a, expanded m w tree a -> expanded m w (tree ++ c) a).
  { intros a Hcl c0 H0 Hf0. destruct (Hcl c0 H0 Hf0) as [p [Hp Ep]].
    exists p. split; [apply in_app_iff; left; exact Hp | exact Ep]. }
  assert (Hn : expanded m w (tree ++ c) n).
  { intros c0 H0 Hf0. destruct (checkBacktrack c0 tree) eqn:Ebt.
    - apply checkBacktrack_true in Ebt. destruct Ebt as [p [Hp Ep]].
      exists p. split; [apply in_app_iff; left; exact Hp | exact Ep].
    - destruct (@neighbour_candidate (coordinates n)
                  (previousCoordinates n ++ [n]) m g w tree c0 H0 Hf0 Ebt)
        as [node [Hnode Enode]].
      exists node. split; [| exact Enode].
      apply in_app_iff. right.
      apply (Permutation_in _ (Permutation_sym (arrange_perm _))).
      exact Hnode. }
  constructor.
  - intros a Ha. apply in_app_iff in Ha. destruct Ha as [Ha | Ha].
    + destruct (cl_closed J a Ha) as [Hfr | Hcl]; [| right; auto].
      apply (Permutation_in _ HP) in Hfr. destruct Hfr as [<- | Hr].
      * right; exact Hn.
      * left. apply put_complete. apply in_app_iff. left; exact Hr.
    + left. apply Hnew; exact Ha.
  - intros a Ha Ec. apply in_app_iff in Ha. destruct Ha as [Ha | Ha].
    + destruct (cl_waiting J a Ha Ec) as [Hfr Hg]. split; [| exact Hg].
      apply Hkeep; [exact Hfr|]. intros ->. congruence.
    + split; [apply Hnew; exact Ha|].
      apply (Permutation_in _ (arrange_perm _)) in Ha.
      apply probeCoordinates_In in Ha. destruct Ha as (Hs & _).
      apply searchSpace_In in Hs. destruct Hs as (_ & Hg & _).
      rewrite Hg. apply checkGoal_true. exact Ec.
Qed.

(** Once the frontier is empty, every cell a walk from the start can reach
    is in the tree. *)
Lemma closure_reaches : forall tree,
  ClosureInvariant m w g [] tree ->
  (exists r, In r tree /\ coordinates r = start) ->
  forall k c, Walk m w start k c -> exists p, In p tree /\ coordinates p = c.
Proof.
  intros tree J Hroot k c HW. induction HW as [| k c c' HW IH Hc Hf].
  - exact Hroot.
  - destruct IH as [p [Hp Ep]].
    destruct (cl_closed J p Hp) as [[] | Hcl].
    apply Hcl; [rewrite Ep; exact Hc | exact Hf].
Qed.

Lemma skeleton_complete : forall fuel s,
  start <> g ->
  Reachable m w start g ->
  skeleton_loop m w g d fuel [getInitialNode start g]
                [getInitialNode start g] = Returns s ->
  status s = found.
Proof.
  intros fuel s Hsg [k HW] H.
  apply (skeleton_rule m w g d
           (fun frontier tree =>
              ClosureInvariant m w g frontier tree
              /\ exists r, In r tree /\ coordinates r = start)
           (fun s => status s = found))
    with (fuel := fuel) (frontier := [getInitialNode start g])
         (tree := [getInitialNode start g]);
    [ | | | | exact H].
  - intros fr t [J Hroot] Et. apply take_none in Et. subst fr. exfalso.
    destruct (closure_reaches J Hroot HW) as [p [Hp Ep]].
    destruct (cl_waiting J p Hp Ep) as [[] _].
  - intros; reflexivity.
  - intros fr t n rest [J [r [Hr Er]]] Et Eg c. split.
    + eapply closure_step; eassumption.
    + exists r. split; [apply in_app_iff; left; exact Hr | exact Er].
  - split; [apply closure_init; exact Hsg|].
    eexists. split; [left; reflexivity | reflexivity].
Qed.

End ClosureProofs.

(** Depth-first, breadth-first, greedy best-first and A* search, from a
    start that is not the goal, report found exactly when some walk of unit
    moves through free cells leads from the start to the goal -- so a goal
    that is walled off, outside the maze or on a wall is reported as a
    failure, and every goal that can be reached is found. *)
Theorem found_iff_reachable :
  forall problem startNode goal searchMethod,
    In searchMethod exhaustiveNames ->
    startNode <> goal ->
    exists s,
      findSolution problem startNode goal searchMethod = Returns s
      /\ (status s = found
          <-> Reachable (mazeSize problem) (walls problem) startNode goal)
      /\ (status s = fail
          <-> ~ Reachable (mazeSize problem) (walls problem) startNode goal).
Proof.
  intros problem startNode goal searchMethod Hm Hsg.
  assert (Hs : In searchMethod strategyNames).
  { unfold exhaustiveNames, strategyNames in *. simpl in *. tauto. }
  assert (Hs1 : In searchMethod singleFrontierNames).
  { unfold exhaustiveNames, singleFrontierNames in *. simpl in *. tauto. }
  destruct (findSolution_named problem startNode goal Hs) as [s Hret].
  exists s. split; [exact Hret|].
  assert (Hiff : status s = found
                 <-> Reachable (mazeSize problem) (walls problem)
                               startNode goal).
  { split.
    - intros Hf.
      destruct (found_follows _ _ _ Hs1 Hret Hf)
        as (b & rest & _ & Hfol & Hl).
      exists (0 + length (map direction (b :: rest)))%nat.
      eapply route_Walk; [apply Walk_start|].
      rewrite (follows_route _ _ _ _ Hfol), Hl. reflexivity.
    - intros HR.
      destruct (findSolution_exhaustive problem startNode goal Hm)
        as [d [L [E Eq]]].
      rewrite Eq in Hret.
      eapply (@skeleton_complete _ _ startNode _ d L E); eassumption. }
  split; [exact Hiff|].
  rewrite <- Hiff. destruct (status s); split; intros H;
    try discriminate; try reflexivity; try congruence.
Qed.

Lemma found_iff_reachable_witness :
  exists s,
    findSolution Scenario.enclosed {| x := 0; y := 0 |} {| x := 2; y := 2 |}
                 "GBFS" = Returns s
    /\ (status s = found
        <-> Reachable (mazeSize Scenario.enclosed) (walls Scenario.enclosed)
                      {| x := 0; y := 0 |} {| x := 2; y := 2 |})
    /\ (status s = fail
        <-> ~ Reachable (mazeSize Scenario.enclosed) (walls Scenario.enclosed)
                        {| x := 0; y := 0 |} {| x := 2; y := 2 |}).
Proof.
  apply (found_iff_reachable Scenario.enclosed).
  - vm_compute. tauto.
  - discriminate.
Defined.

(** * Breadth-first search returns a shortest path *)

Section BfsShortest.

Variable m : MazeSize.
Variable w : list Wall.
Variable s : Coordinate.
Variable g : Coordinate.

(** Every cell that a walk no longer than the nearest frontier level
    reaches is already in the tree. *)
Lemma shortest_complete : forall frontier tree,
  ShortestInvariant m w s frontier tree ->
  forall k c,
    Walk m w s k c ->
    (forall n, In n frontier -> (k <= level n)%nat) ->
    exists p, In p tree /\ coordinates p = c.
Proof.
  intros frontier tree J k c HW.
  induction HW as [| k c c' HW IH Hc Hf]; intros Hfr.
  - exact (sp_root J).
  - destruct IH as [p [Hp Ep]].
    { intros n Hn. apply Hfr in Hn. lia. }
    destruct (sp_closed J p Hp) as [Hin | Hcl].
    + apply Hfr in Hin. destruct (sp_levels J p Hp) as [_ Hmin].
      rewrite Ep in Hmin. apply Hmin in HW. lia.
    + apply Hcl; [rewrite Ep; exact Hc | exact Hf].
Qed.

Lemma shortest_init :
  ShortestInvariant m w s [getInitialNode s g] [getInitialNode s g].
Proof.
  constructor.
  - intros n [<- | []]. split; [apply Walk_start | intros; apply Nat.le_0_l].
  - eexists. split; [left; reflexivity | reflexivity].
  - apply incl_refl.
  - repeat constructor.
  - intros a b [<- | []] [<- | []]. lia.
  - intros n Hn. left; exact Hn.
Qed.

Lemma shortest_step : forall n rest tree,
  ShortestInvariant m w s (n :: rest) tree ->
  let c := probeCoordinates (coordinates n) (previousCoordinates n ++ [n])
                            m g w tree in
  ShortestInvariant m w s (rest ++ c) (tree ++ c).
Proof.
  intros n rest tree J c.
  assert (Hn : In n tree) by (apply (sp_frontier J); left; reflexivity).
  destruct (sp_levels J n Hn) as [Hwn Hminn].
  assert (Hmin : forall a, In a (n :: rest) -> (level n <= level a)%nat).
  { intros a [<- | Ha]; [lia|].
    pose proof (sp_sorted J) as S. inversion S as [| ? ? _ Hf]; subst.
    rewrite Forall_forall in Hf. apply Hf; exact Ha. }
  assert (Hc : forall a, In a c ->
             level a = S (level n)
             /\ Walk m w s (level a) (coordinates a)
             /\ forall k, Walk m w s k (coordinates a) -> (level a <= k)%nat).
  { intros a Ha.
    pose proof (candidate_depth _ _ _ _ _ _ Ha) as [_ Hp].
    assert (Hl : level a = S (level n)).
    { unfold level. rewrite Hp, length_app. simpl. lia. }
    destruct (candidate_cell _ _ _ _ _ _ _ Ha) as (Hloc & Hfree & Hbt).
    split; [exact Hl | split].
    - rewrite Hl. eapply Walk_step; eassumption.
    - intros k HW.
      destruct (Nat.le_gt_cases (level a) k) as [Hle | Hgt]; [exact Hle|].
      exfalso.
      destruct (shortest_complete J HW) as [p [Hp' Ep]].
      { intros a' Ha'. apply Hmin in Ha'. lia. }
      assert (Ht : checkBacktrack (coordinates a) tree = true)
        by (apply checkBacktrack_true; exists p; tauto).
      congruence. }
  constructor.
  - intros a Ha. apply in_app_iff in Ha. destruct Ha as [Ha | Ha].
    + exact (sp_levels J a Ha).
    + apply (Hc a Ha).
  - destruct (sp_root J) as [r [Hr Er]]. exists r.
    split; [apply in_app_iff; left; exact Hr | exact Er].
  - intros a Ha. apply in_app_iff in Ha. apply in_app_iff.
    destruct Ha as [Ha | Ha]; [left | right; exact Ha].
    apply (sp_frontier J). right; exact Ha.
  - apply StronglySorted_app.
    + pose proof (sp_sorted J) as S. inversion S; assumption.
    + apply StronglySorted_all. intros a b Ha Hb.
      destruct (Hc a Ha) as [-> _]. destruct (Hc b Hb) as [-> _]. lia.
    + intros a b Ha Hb. destruct (Hc b Hb) as [-> _].
      apply (sp_window J); [left; reflexivity | right; exact Ha].
  - intros a b Ha Hb. apply in_app_iff in Ha, Hb.
    destruct Ha as [Ha | Ha]; destruct Hb as [Hb | Hb].
    + apply (sp_window J); right; assumption.
    + destruct (Hc b Hb) as [-> _].
      assert (level n <= level a)%nat by (apply Hmin; right; exact Ha). lia.
    + destruct (Hc a Ha) as [-> _].
      assert (level b <= S (level n))%nat
        by (apply (sp_window J); [left; reflexivity | right; exact Hb]).
      lia.
    + destruct (Hc a Ha) as [-> _]. destruct (Hc b Hb) as [-> _]. lia.
  - intros a Ha. apply in_app_iff in Ha. destruct Ha as [Ha | Ha].
    + assert (Hgrow : expanded m w tree a -> expanded m w (tree ++ c) a).
      { intros Hcl c0 H0 Hf0. destruct (Hcl c0 H0 Hf0) as [p [Hp Ep]].
        exists p. split; [apply in_app_iff; left; exact Hp | exact Ep]. }
      destruct (sp_closed J a Ha) as [[<- | Hr] | Hcl].
      * right. intros c0 H0 Hf0.
        destruct (checkBacktrack c0 tree) eqn:Ebt.
        -- apply checkBacktrack_true in Ebt. destruct Ebt as [p [Hp Ep]].
           exists p. split; [apply in_app_iff; left; exact Hp | exact Ep].
        -- destruct (@neighbour_candidate (coordinates n)
                       (previousCoordinates n ++ [n]) m g w tree c0
                       H0 Hf0 Ebt)
             as [node [Hnode Enode]].
           exists node.
           split; [apply in_app_iff; right; exact Hnode | exact Enode].
      * left. apply in_app_iff. left; exact Hr.
      * right. apply Hgrow; exact Hcl.
    + left. apply in_app_iff. right; exact Ha.
Qed.

End BfsShortest.

(** A path found by breadth-first search is a shortest one: some walk
    through free cells from the start to the goal has as many moves as the
    path, and none has fewer. *)
Theorem bfs_shortest_path : forall problem startNode goal s,
  findSolution problem startNode goal "BFS" = Returns s ->
  status s = found ->
  Walk (mazeSize problem) (walls problem) startNode (length (path s)) goal
  /\ forall k,
       Walk (mazeSize problem) (walls problem) startNode k goal ->
       (length (path s) <= k)%nat.
Proof.
  intros problem startNode goal s Hret Hfound.
  unfold findSolution in Hret.
  cbn [selectAlgorithm ownProperty algorithmMap String.eqb Ascii.eqb
                       Bool.eqb] in Hret.
  unfold bfs in Hret. rewrite bfs_loop_skeleton in Hret.
  revert Hfound.
  apply (skeleton_rule (mazeSize problem) (walls problem) goal bfsDiscipline
           (fun frontier tree =>
              ShortestInvariant (mazeSize problem) (walls problem) startNode
                                frontier tree
              /\ forall n, In n tree -> isGoal n = true ->
                           coordinates n = goal)
           (fun s =>
              status s = found ->
              Walk (mazeSize problem) (walls problem) startNode
                   (length (path s)) goal
              /\ forall k,
                   Walk (mazeSize problem) (walls problem) startNode k goal ->
                   (length (path s) <= k)%nat))
    with (fuel := searchFuel (mazeSize problem))
         (frontier := [getInitialNode startNode goal])
         (tree := [getInitialNode startNode goal]);
    [ | | | | exact Hret].
  - intros; discriminate.
  - intros frontier tree n rest [JS Hgoal] Et Eg _.
    destruct frontier as [| n' rest']; [discriminate|].
    injection Et as -> ->. simpl.
    rewrite length_map, tail_length, length_app. simpl.
    rewrite Nat.add_1_r. simpl.
    assert (Hn : In n tree) by (apply (sp_frontier JS); left; reflexivity).
    rewrite <- (Hgoal n Hn Eg). exact (sp_levels JS n Hn).
  - intros frontier tree n rest [JS Hgoal] Et Eg.
    destruct frontier as [| n' rest']; [discriminate|].
    injection Et as -> ->. cbn [arrange put bfsDiscipline]. split.
    + apply shortest_step; exact JS.
    + intros a Ha Ega. apply in_app_iff in Ha. destruct Ha as [Ha | Ha].
      * exact (Hgoal a Ha Ega).
      * apply probeCoordinates_In in Ha. destruct Ha as (Hs & _).
        apply searchSpace_In in Hs. destruct Hs as (_ & Hg & _).
        rewrite Hg in Ega. apply checkGoal_true in Ega. exact Ega.
  - split; [apply shortest_init|]. intros n [<- | []]. discriminate.
Qed.

Lemma bfs_shortest_path_witness :
  Walk (mazeSize Tiny.problem) (walls Tiny.problem) Tiny.start
       (length (path Tiny.solution)) Tiny.goal
  /\ forall k,
       Walk (mazeSize Tiny.problem) (walls Tiny.problem) Tiny.start k
            Tiny.goal ->
       (length (path Tiny.solution) <= k)%nat.
Proof.
  apply (bfs_shortest_path Tiny.problem Tiny.start Tiny.goal).
  - vm_compute. reflexivity.
  - reflexivity.
Defined.

(** * Best-first frontiers *)

Section SortByKey.

Variable A : Type.
Variable key : A -> Z.

Let compare (a b : A) : Z := key a - key b.

Lemma insertSorted_sorted : forall a l,
  StronglySorted (fun a b => key a <= key b) l ->
  StronglySorted (fun a b => key a <= key b) (JsArray.insertSorted compare a l).
Proof.
  intros a l H. induction H as [| b l Hs IH Hf]; simpl.
  - repeat constructor.
  - unfold compare at 1. destruct (key a - key b <=? 0) eqn:E.
    + apply Z.leb_le in E. constructor; [constructor; assumption|].
      constructor; [lia|].
      rewrite Forall_forall in *. intros c Hc. apply Hf in Hc. lia.
    + apply Z.leb_gt in E. constructor; [exact IH|].
      rewrite Forall_forall in *. intros c Hc.
      apply (Permutation_in _ (insertSorted_perm compare a l)) in Hc.
      destruct Hc as [<- | Hc]; [lia | apply Hf; exact Hc].
Qed.

Lemma sort_sorted : forall l,
  StronglySorted (fun a b => key a <= key b) (JsArray.sort compare l).
Proof.
  induction l as [| a l IH]; simpl; [constructor|].
  apply insertSorted_sorted. exact IH.
Qed.

Lemma insertSorted_stable : forall k a l,
  filter (fun b => key b =? k) (JsArray.insertSorted compare a l)
  = filter (fun b => key b =? k) (a :: l).
Proof.
  intros k a. induction l as [| b l IH]; [reflexivity|].
  cbn [JsArray.insertSorted]. unfold compare at 1.
  destruct (key a - key b <=? 0) eqn:E; [reflexivity|].
  apply Z.leb_gt in E. cbn [filter] in *. rewrite IH.
  destruct (key a =? k) eqn:Ea; destruct (key b =? k) eqn:Eb;
    try reflexivity.
  apply Z.eqb_eq in Ea, Eb. lia.
Qed.

Lemma sort_stable : forall k l,
  filter (fun b => key b =? k) (JsArray.sort compare l)
  = filter (fun b => key b =? k) l.
Proof.
  intros k. induction l as [| a l IH]; [reflexivity|].
  cbn [JsArray.sort fold_right]. fold (JsArray.sort compare l).
  rewrite insertSorted_stable. cbn [filter]. rewrite IH. reflexivity.
Qed.

End SortByKey.

(** Greedy best-first search keeps its frontier sorted by
    [fromCurrentNode], A* by [fromStartingNode]; nodes with equal keys stay
    in the order in which they arrived.  The node an iteration takes, the
    first of the frontier, is therefore one with the least key. *)
Theorem best_first_frontier : forall m w g,
  keepsSorted (fun a => fromCurrentNode (distanceToGoal a))
              (gbfs_loop m w g)
              (fun n tree =>
                 probeCoordinates (coordinates n)
                                  (previousCoordinates n ++ [n]) m g w tree)
  /\ keepsSorted (fun a => fromStartingNode (distanceToGoal a))
                 (aStar_loop m w g)
                 (fun n tree =>
                    probeCoordinates (coordinates n)
                                     (previousCoordinates n ++ [n]) m g w tree).
Proof.
  intros m w g. split; intros frontier tree.
  - destruct frontier as [| n rest];
      [left; eexists; intros; reflexivity|].
    destruct (isGoal n) eqn:Eg.
    + left. eexists. intros. simpl. rewrite Eg. reflexivity.
    + right. exists n, rest. eexists. split; [reflexivity|].
      split; [intros; simpl; rewrite Eg; reflexivity|].
      split; [apply sort_perm|].
      split; [apply (sort_sorted (fun a => fromCurrentNode (distanceToGoal a)))|].
      intros k.
      apply (sort_stable (fun a => fromCurrentNode (distanceToGoal a))).
  - destruct frontier as [| n rest];
      [left; eexists; intros; reflexivity|].
    destruct (isGoal n) eqn:Eg.
    + left. eexists. intros. simpl. rewrite Eg. reflexivity.
    + right. exists n, rest. eexists. split; [reflexivity|].
      split; [intros; simpl; rewrite Eg; reflexivity|].
      split; [apply sort_perm|].
      split; [apply (sort_sorted (fun a => fromStartingNode (distanceToGoal a)))|].
      intros k.
      apply (sort_stable (fun a => fromStartingNode (distanceToGoal a))).
Qed.

(** * The multi-goal run is a greedy tour *)

Lemma sort_ext : forall (A : Type) (c1 c2 : A -> A -> Z) l,
  (forall a b, c1 a b = c2 a b) -> JsArray.sort c1 l = JsArray.sort c2 l.
Proof.
  intros A c1 c2 l H. induction l as [| a l IH]; [reflexivity|].
  simpl. rewrite IH. generalize (JsArray.sort c2 l). intros l'.
  induction l' as [| b l' IH']; [reflexivity|].
  simpl. rewrite H, IH'. reflexivity.
Qed.

Lemma StronglySorted_last : forall (A : Type) (R : A -> A -> Prop) l a b,
  StronglySorted R (l ++ [a]) -> In b l -> R b a.
Proof.
  induction l as [| c l IH]; intros a b H Hb; [contradiction|].
  simpl in H. inversion H as [| ? ? Hs Hf]; subst.
  destruct Hb as [<- | Hb].
  - rewrite Forall_forall in Hf. apply Hf. apply in_app_iff.
    right; left; reflexivity.
  - apply IH; assumption.
Qed.

Lemma mapFindSolution_each :
  forall problem startNode searchMethod goalList solutions,
    mapFindSolution problem startNode searchMethod goalList
    = Returns solutions ->
    map goal_ solutions = goalList
    /\ forall gs, In gs solutions ->
         findSolution problem startNode (goalCoordinate (goal_ gs))
                      searchMethod
         = Returns (solution_ gs).
Proof.
  intros problem startNode searchMethod.
  induction goalList as [| goal rest IH]; intros solutions H; simpl in H.
  - injection H as <-. split; [reflexivity | intros gs []].
  - destruct (findSolution problem startNode (goalCoordinate goal)
                           searchMethod) as [s | | |] eqn:Ef;
      try discriminate.
    destruct (mapFindSolution problem startNode searchMethod rest)
      as [sols | | |]; try discriminate.
    injection H as <-. destruct (IH sols eq_refl) as [Hg Hall].
    split; [simpl; rewrite Hg; reflexivity|].
    intros gs [<- | Hin]; [exact Ef | apply Hall; exact Hin].
Qed.

Lemma solutionPath_loop_tour : forall problem searchMethod fuel goalList
                                      startNode solutionPath legs,
  solutionPath_loop fuel problem searchMethod goalList startNode solutionPath
  = Returns legs ->
  exists newLegs,
    legs = solutionPath ++ newLegs
    /\ Tour problem searchMethod startNode goalList newLegs.
Proof.
  intros problem searchMethod.
  induction fuel as [| fuel IH]; intros goalList startNode acc legs H.
  - destruct goalList; [| discriminate]. simpl in H. injection H as <-.
    exists []. rewrite app_nil_r. split; [reflexivity | constructor].
  - destruct goalList as [| g0 gl].
    + simpl in H. injection H as <-.
      exists []. rewrite app_nil_r. split; [reflexivity | constructor].
    + cbn [solutionPath_loop] in H. set (goalList := g0 :: gl) in *.
      destruct (mapFindSolution problem startNode searchMethod goalList)
        as [solutions | | |] eqn:Em; try discriminate.
      destruct (mapFindSolution_each _ _ _ _ Em) as [Egoals Hall].
      set (key := fun gs : GoalSolution =>
                    - Z.of_nat (length (path (solution_ gs)))).
      rewrite (sort_ext _ (fun a b => key a - key b)) in H
        by (intros; unfold key; lia).
      pose proof (sort_sorted key solutions) as Hsorted.
      pose proof (sort_perm (fun a b => key a - key b) solutions) as HP.
      pose proof (pop_spec (JsArray.sort (fun a b => key a - key b) solutions))
        as Hpop.
      destruct (JsArray.pop (JsArray.sort (fun a b => key a - key b)
                                          solutions))
        as [[solution others]|]; [| discriminate].
      rewrite Hpop in Hsorted, HP.
      apply IH in H. destruct H as [newLegs [-> HT]].
      exists (solution_ solution :: newLegs).
      rewrite <- app_assoc. split; [reflexivity|].
      assert (Hsol : In solution solutions).
      { apply (Permutation_in _ HP). apply in_app_iff.
        right; left; reflexivity. }
      apply Tour_leg with (chosen := goal_ solution).
      * rewrite <- Egoals. apply in_map. exact Hsol.
      * apply Hall. exact Hsol.
      * intros other s' Hother Hs'.
        rewrite <- Egoals in Hother. apply in_map_iff in Hother.
        destruct Hother as [gs [<- Hgs]].
        rewrite (Hall gs Hgs) in Hs'. injection Hs' as <-.
        apply (Permutation_in _ (Permutation_sym HP)) in Hgs.
        apply in_app_iff in Hgs. destruct Hgs as [Hgs | [<- | []]];
          [| apply le_n].
        pose proof (@StronglySorted_last _ _ _ _ _ Hsorted Hgs) as Hle.
        unfold key in Hle. simpl in Hle. lia.
      * exact HT.
Qed.

(** The multi-goal search, for each of the six strategies, returns the
    combination of the legs of a greedy tour over the cloned goal list: it
    starts at the agent's location, goes each time to a goal still to visit
    whose single-goal path from the current position is shortest (an
    unreachable goal, whose path is empty, counts as nearest), goes on from
    that goal, and has one leg for every goal of the input. *)
Theorem searchAllGoals_tour : forall problem searchMethod,
  In searchMethod strategyNames ->
  exists legs,
    searchAllGoals problem searchMethod = Returns (finalSolution legs)
    /\ Tour problem searchMethod (agentLocation problem)
            (cloneDeep (goals problem)) legs
    /\ length legs = length (goals problem).
Proof.
  intros problem searchMethod Hm.
  destruct (searchAllGoals_visits_all problem Hm)
    as (s & legs & Hret & Hlegs & Hlen & _).
  exists legs. unfold searchAllGoals in *. rewrite Hlegs in *.
  split; [reflexivity | split; [| exact Hlen]].
  unfold solutionPath in Hlegs. apply solutionPath_loop_tour in Hlegs.
  destruct Hlegs as [newLegs [-> HT]]. exact HT.
Qed.

Lemma searchAllGoals_tour_witness :
  exists legs,
    searchAllGoals Scenario.corners5 "BFS" = Returns (finalSolution legs)
    /\ Tour Scenario.corners5 "BFS" (agentLocation Scenario.corners5)
            (cloneDeep (goals Scenario.corners5)) legs
    /\ length legs = length (goals Scenario.corners5).
Proof.
  apply (searchAllGoals_tour Scenario.corners5).
  vm_compute. tauto.
Defined.

(** * The tree of the depth-limited search *)

(** The depth-limited search never generates a node more than one level
    beyond its limit: every node of the returned tree has a depth, equal to
    the number of its ancestors, between 0 and [depthLimit + 1]. *)
Theorem customOne_tree_depth : forall problem startNode goal s,
  findSolution problem startNode goal "CUS1" = Returns s ->
  forall n, In n (searchTree s) ->
    depth n = Z.of_nat (length (previousCoordinates n))
    /\ 0 <= depth n <= depthLimit + 1.
Proof.
  intros problem startNode goal s Hret.
  unfold findSolution in Hret.
  cbn [selectAlgorithm ownProperty algorithmMap String.eqb Ascii.eqb
                       Bool.eqb] in Hret.
  unfold customOne in Hret. rewrite customOne_loop_skeleton in Hret.
  apply (skeleton_rule (mazeSize problem) (walls problem) goal
           customOneDiscipline
           (fun frontier tree =>
              (forall n, In n tree ->
                 depth n = Z.of_nat (length (previousCoordinates n))
                 /\ 0 <= depth n <= depthLimit + 1)
              /\ (forall n, In n frontier ->
                    depth n = Z.of_nat (length (previousCoordinates n))
                    /\ 0 <= depth n <= depthLimit))
           (fun s =>
              forall n, In n (searchTree s) ->
                depth n = Z.of_nat (length (previousCoordinates n))
                /\ 0 <= depth n <= depthLimit + 1))
    with (fuel := searchFuel (mazeSize problem))
         (frontier := [getInitialNode startNode goal])
         (tree := [getInitialNode startNode goal]);
    [ | | | | exact Hret].
  - intros fr t [Ht _] _. exact Ht.
  - intros fr t n rest [Ht _] _ _. exact Ht.
  - intros fr t n rest [Ht Hf] Et _ c.
    assert (Hn : In n fr).
    { apply (Permutation_in _ (Permutation_sym (take_some _ Et))).
      left; reflexivity. }
    destruct (Hf n Hn) as [Hd Hl].
    assert (Hc : forall a, In a c ->
               depth a = Z.of_nat (length (previousCoordinates a))
               /\ depth a = depth n + 1).
    { intros a Ha. unfold c in Ha. cbn [arrange customOneDiscipline] in Ha.
      apply in_rev in Ha. apply candidate_depth in Ha.
      destruct Ha as [Hda Hpa]. rewrite Hda, Hpa, length_app. simpl. lia. }
    split.
    + intros a Ha. apply in_app_iff in Ha. destruct Ha as [Ha | Ha]; [auto|].
      destruct (Hc a Ha) as [H1 H2]. lia.
    + intros a Ha.
      assert (Hrest : In a rest ->
                depth a = Z.of_nat (length (previousCoordinates a))
                /\ 0 <= depth a <= depthLimit).
      { intros Hr. apply Hf.
        apply (Permutation_in _ (Permutation_sym (take_some _ Et))).
        right; exact Hr. }
      unfold c in Ha. cbn [arrange customOneDiscipline] in Ha.
      rewrite customOne_push_test in Ha.
      destruct (depth n =? depthLimit) eqn:E; [auto|].
      apply in_app_iff in Ha. destruct Ha as [Ha | Ha]; [auto|].
      apply Z.eqb_neq in E. destruct (Hc a Ha) as [H1 H2]. lia.
  - split; intros n [<- | []]; simpl; unfold depthLimit; lia.
Qed.

Lemma customOne_tree_depth_witness :
  depth Tiny.right = Z.of_nat (length (previousCoordinates Tiny.right))
  /\ 0 <= depth Tiny.right <= depthLimit + 1.
Proof.
  apply (customOne_tree_depth Tiny.problem Tiny.start Tiny.goal
                              (s := Tiny.solution)).
  - vm_compute. reflexivity.
  - right; left; reflexivity.
Defined.

Lemma Walk_manhattan : forall m w start k c,
  Walk m w start k c -> manhattan start c <= Z.of_nat k.
Proof.
  intros m w start k c H. induction H as [| k c c' _ IH Hn _].
  - unfold manhattan. lia.
  - destruct (manhattan_neighbour start Hn); lia.
Qed.

(** The depth-limited search is cut off by its limit: when every walk from
    the start to the goal through free cells takes more than [depthLimit]
    moves -- in particular when the goal is unreachable, but also when it
    is reachable and far -- the search answers [fail] with an empty path. *)
Theorem customOne_beyond_limit : forall problem startNode goal,
  (forall k, Walk (mazeSize problem) (walls problem) startNode k goal ->
             depthLimit < Z.of_nat k) ->
  exists s,
    findSolution problem startNode goal "CUS1" = Returns s
    /\ status s = fail /\ path s = [].
Proof.
  intros problem startNode goal Hfar.
  assert (Hm : In "CUS1" singleFrontierNames)
    by (unfold singleFrontierNames; simpl; tauto).
  assert (Hs : In "CUS1" strategyNames)
    by (unfold strategyNames; simpl; tauto).
  destruct (findSolution_named problem startNode goal Hs) as [s Hret].
  exists s. split; [exact Hret|].
  destruct (findSolution_invariant _ _ _ Hm Hret) as [_ Hres].
  destruct (status s) eqn:Est; [exfalso | split; [reflexivity | exact Hres]].
  destruct (found_follows _ _ _ Hm Hret Est) as (b & rest & Ep & Hfol & Hl).
  assert (Hlen : Z.of_nat (length (path s)) <= depthLimit).
  { unfold findSolution in Hret.
    cbn [selectAlgorithm ownProperty algorithmMap String.eqb Ascii.eqb
                         Bool.eqb] in Hret.
    unfold customOne in Hret. rewrite customOne_loop_skeleton in Hret.
    eapply customOne_path_bounded; [| exact Hret | exact Est].
    intros n [<- | []]. simpl. unfold depthLimit. lia. }
  assert (HW : Walk (mazeSize problem) (walls problem) startNode
                    (0 + length (map direction (b :: rest))) goal).
  { eapply route_Walk; [apply Walk_start|].
    rewrite (follows_route _ _ _ _ Hfol), Hl. reflexivity. }
  apply Hfar in HW. rewrite Ep in Hlen.
  rewrite !length_map in Hlen. rewrite length_map in HW.
  cbn [Nat.add] in HW. lia.
Qed.

Lemma customOne_beyond_limit_witness :
  exists s,
    findSolution {| mazeSize := {| rows := 1; columns := 12 |};
                    agentLocation := {| x := 0; y := 0 |};
                    goals := [{| x := 11; y := 0 |}];
                    walls := [] |}
                 {| x := 0; y := 0 |} {| x := 11; y := 0 |} "CUS1" = Returns s
    /\ status s = fail /\ path s = [].
Proof.
  apply customOne_beyond_limit.
  intros k HW. apply Walk_manhattan in HW.
  unfold manhattan in HW. simpl in HW. unfold depthLimit. lia.
Defined.

(** * A problem without goals *)

(** With an empty goal list the single-goal search throws -- there is no
    first goal to measure the distance to -- whatever the strategy name,
    while the multi-goal search runs no leg and returns a failure with an
    empty path and an empty tree, also for a name that selects no
    strategy. *)
Theorem searchMaze_no_goals : forall problem searchMethod,
  goals problem = [] ->
  searchMaze problem searchMethod false = Throws
  /\ searchMaze problem searchMethod true
     = Returns {| status := fail; path := []; searchTree := [] |}.
Proof.
  intros problem searchMethod H. unfold searchMaze, searchAllGoals,
    solutionPath. rewrite H. split; reflexivity.
Qed.

Lemma searchMaze_no_goals_witness :
  searchMaze {| mazeSize := {| rows := 2; columns := 2 |};
                agentLocation := {| x := 0; y := 0 |};
                goals := []; walls := [] |} "nonsense" false = Throws
  /\ searchMaze {| mazeSize := {| rows := 2; columns := 2 |};
                   agentLocation := {| x := 0; y := 0 |};
                   goals := []; walls := [] |} "nonsense" true
     = Returns {| status := fail; path := []; searchTree := [] |}.
Proof.
  apply searchMaze_no_goals. reflexivity.
Defined.

(** * Breadth-first search on an open maze, an instance *)

Lemma bfs_open_maze_witness :
  exists sol,
    findSolution Scenario.corners5 {| x := 0; y := 0 |} {| x := 4; y := 4 |}
                 "BFS" = Returns sol
    /\ status sol = found
    /\ Z.of_nat (length (path sol))
       = manhattan {| x := 0; y := 0 |} {| x := 4; y := 4 |}.
Proof.
  apply (bfs_open_maze Scenario.corners5).
  - reflexivity.
  - vm_compute. intuition discriminate.
  - vm_compute. intuition discriminate.
  - discriminate.
Defined.

(** * The path of the bidirectional search *)

Lemma follows_linked : forall m w l c,
  follows m w c l -> linked m w c (map coordinates l).
Proof.
  intros m w. induction l as [| n l IH]; intros c H; simpl; [exact I|].
  destruct H as (Hm & Hf & Hrest).
  split; [eapply move_searchLocations; exact Hm|].
  split; [exact Hf | apply IH; exact Hrest].
Qed.

Lemma last_cons : forall (A : Type) (l : list A) a d,
  last (a :: l) d = last l a.
Proof.
  intros A. induction l as [| b l IH]; intros a d; [reflexivity|].
  change (last (a :: b :: l) d) with (last (b :: l) d).
  rewrite !IH. reflexivity.
Qed.

Lemma last_map_coordinates : forall l c,
  last (map coordinates l) c = lastCell c l.
Proof.
  induction l as [| n l IH]; intros c; [reflexivity|].
  rewrite lastCell_cons, <- IH. cbn [map]. apply last_cons.
Qed.

Lemma last_app_default : forall (A : Type) (l1 l2 : list A) d,
  last (l1 ++ l2) d = last l2 (last l1 d).
Proof.
  intros A. induction l1 as [| a l1 IH]; intros l2 d; [reflexivity|].
  cbn [app]. rewrite !last_cons. apply IH.
Qed.

Lemma linked_app : forall m w l1 l2 c,
  linked m w c (l1 ++ l2) <->
  linked m w c l1 /\ linked m w (last l1 c) l2.
Proof.
  intros m w. induction l1 as [| a l1 IH]; intros l2 c.
  - simpl. tauto.
  - cbn [app linked]. rewrite IH, last_cons. tauto.
Qed.

Lemma searchLocations_sym : forall c c',
  In c' (searchLocations c) -> In c (searchLocations c').
Proof.
  intros [cx cy] c' H. unfold searchLocations in *. simpl in H.
  destruct H as [<- | [<- | [<- | [<- | []]]]]; simpl.
  - right; right; left. f_equal; lia.
  - right; right; right; left. f_equal; lia.
  - left. f_equal; lia.
  - right; left. f_equal; lia.
Qed.

(** Walking a chain backwards: the reversed cells before the meeting cell
    lead from it to the cell the chain started at. *)
Lemma linked_back : forall m w chain before c meet,
  before ++ [meet] = c :: chain ->
  linked m w c chain ->
  isFree m w c = true ->
  linked m w meet (rev before) /\ last (rev before) meet = c.
Proof.
  intros m w. induction chain as [| c1 chain IH];
    intros before c meet E Hl Hf.
  - destruct before as [| b before].
    + injection E as ->. split; [exact I | reflexivity].
    + injection E as _ E. destruct before; discriminate.
  - destruct before as [| b before]; [discriminate|].
    injection E as -> E. destruct Hl as (Hn & Hf1 & Hl).
    destruct (IH _ _ _ E Hl Hf1) as [Hback Hlast].
    cbn [rev]. split.
    + apply linked_app. split; [exact Hback|]. rewrite Hlast.
      simpl. split; [apply searchLocations_sym; exact Hn|].
      split; [exact Hf | exact I].
    + rewrite last_app_default. reflexivity.
Qed.

Lemma currentDirection_move : forall p n,
  In (coordinates n) (searchLocations p) ->
  move (currentDirection (Some p) n) p = Some (coordinates n).
Proof.
  intros [px py] n H. unfold searchLocations in H. simpl in H.
  unfold currentDirection. cbn [x y].
  destruct H as [<- | [<- | [<- | [<- | []]]]]; cbn [x y];
    repeat match goal with
           | |- context [?a >? ?b] => destruct (Z.gtb_spec a b); try lia
           | |- context [?a <? ?b] => destruct (Z.ltb_spec a b); try lia
           end; reflexivity.
Qed.

(** The labels the stitched path is given are the moves along it. *)
Lemma finalPath_route : forall m w l p,
  linked m w p (map coordinates l) ->
  route m w p (map entryDirection (finalPathFrom (Some p) l))
  = Some (last (map coordinates l) p).
Proof.
  intros m w. induction l as [| n l IH]; intros p H; [reflexivity|].
  cbn [map linked] in H. destruct H as (Hn & Hf & Hl).
  cbn [finalPathFrom map entryDirection route].
  rewrite (currentDirection_move _ Hn), Hf, (IH _ Hl).
  cbn [map]. rewrite last_cons. reflexivity.
Qed.

Lemma route_moves : forall m w l c c',
  route m w c l = Some c' ->
  Forall (fun label => In label moveLabels) l.
Proof.
  intros m w. induction l as [| label l IH]; intros c c' H; constructor.
  - simpl in H. unfold move in H. unfold moveLabels.
    destruct (String.eqb_spec label "up; "); [subst; simpl; auto|].
    destruct (String.eqb_spec label "left; "); [subst; simpl; auto|].
    destruct (String.eqb_spec label "down; "); [subst; simpl; auto|].
    destruct (String.eqb_spec label "right; "); [subst; simpl; auto|].
    discriminate.
  - simpl in H. destruct (move label c) as [c1|]; [|discriminate].
    destruct (isFree m w c1); [|discriminate].
    exact (IH _ _ H).
Qed.

Lemma chained_step : forall m w g root tree n,
  Chained m w root tree ->
  In n tree ->
  Chained m w root
          (tree ++ probeCoordinates (coordinates n)
                     (previousCoordinates n ++ [n]) m g w tree).
Proof.
  intros m w g root tree n HC Hn a Ha.
  apply in_app_iff in Ha. destruct Ha as [Ha | Ha]; [exact (HC a Ha)|].
  destruct (HC n Hn) as [restn [En Hfollow]].
  pose proof (candidate_depth _ _ _ _ _ _ Ha) as [_ Hprev].
  pose proof (candidate_move _ _ _ _ _ _ _ Ha) as Hm.
  apply probeCoordinates_In in Ha.
  exists (restn ++ [a]). split.
  - rewrite Hprev, En. reflexivity.
  - apply follows_app. split; [exact Hfollow|].
    split; [| apply isFree_true; tauto].
    rewrite (@lastCell_chain _ _ _ _ En). exact Hm.
Qed.

Lemma sameCoordinates_eq : forall a b,
  sameCoordinates a b = true -> coordinates b = coordinates a.
Proof.
  intros a b H. unfold sameCoordinates in H.
  apply andb_true_iff in H. destruct H as [Hx Hy].
  apply Z.eqb_eq in Hx, Hy. apply coordinate_eq; assumption.
Qed.

Section MeetProofs.

Variable m : MazeSize.
Variable w : list Wall.
Variable agent : Coordinate.
Variable g : Coordinate.
Variable root : SearchNode.
Variable reverseRoot : SearchNode.

Lemma meet_step : forall n f rn rf t rt,
  MeetInvariant m w root reverseRoot (n :: f) t (rn :: rf) rt ->
  let c := probeCoordinates (coordinates n) (previousCoordinates n ++ [n])
                            m g w t in
  let rc := probeCoordinates (coordinates rn)
                             (previousCoordinates rn ++ [rn])
                             m agent w rt in
  forall compare compare',
    MeetInvariant m w root reverseRoot
                  (JsArray.sort compare (f ++ c)) (t ++ c)
                  (JsArray.sort compare' (rf ++ rc)) (rt ++ rc).
Proof.
  intros n f rn rf t rt J c rc compare compare'.
  constructor.
  - apply chained_step; [exact (mi_forward J)|].
    apply (mi_frontier J). left; reflexivity.
  - apply chained_step; [exact (mi_backward J)|].
    apply (mi_reverseFrontier J). left; reflexivity.
  - intros a Ha. apply (Permutation_in _ (sort_perm _ _)) in Ha.
    apply in_app_iff in Ha. apply in_app_iff.
    destruct Ha as [Ha | Ha]; [left | right; exact Ha].
    apply (mi_frontier J). right; exact Ha.
  - intros a Ha. apply (Permutation_in _ (sort_perm _ _)) in Ha.
    apply in_app_iff in Ha. apply in_app_iff.
    destruct Ha as [Ha | Ha]; [left | right; exact Ha].
    apply (mi_reverseFrontier J). right; exact Ha.
Qed.

(** The stitched path of two chains that end on the same cell. *)
Lemma meet_route : forall t rt meet forwardNode reverseNode,
  Chained m w root t ->
  Chained m w reverseRoot rt ->
  isFree m w (coordinates reverseRoot) = true ->
  find (sameCoordinates meet) t = Some forwardNode ->
  find (sameCoordinates meet) rt = Some reverseNode ->
  route m w (coordinates root)
        (map entryDirection
             (Lodash.tail
                (finalPath (previousCoordinates forwardNode
                              ++ [meet]
                              ++ rev (previousCoordinates reverseNode)))))
  = Some (coordinates reverseRoot).
Proof.
  intros t rt meet F R HC HR Hfree EF ER.
  apply find_some in EF, ER. destruct EF as [HF EF]. destruct ER as [HRn ER].
  apply sameCoordinates_eq in EF, ER.
  destruct (HC F HF) as [restF [EcF HfF]].
  destruct (HR R HRn) as [restR [EcR HfR]].
  set (X := coordinates meet) in *.
  assert (EP : map coordinates (previousCoordinates F ++ [meet])
               = coordinates root :: map coordinates restF).
  { rewrite <- (map_cons coordinates), <- EcF, !map_app. simpl.
    fold X. rewrite EF. reflexivity. }
  assert (EQ : map coordinates (previousCoordinates R) ++ [X]
               = coordinates reverseRoot :: map coordinates restR).
  { rewrite <- (map_cons coordinates), <- EcR, map_app. simpl.
    rewrite ER. reflexivity. }
  assert (HlastF : last (map coordinates restF) (coordinates root) = X).
  { rewrite last_map_coordinates, (@lastCell_chain _ _ _ _ EcF). exact EF. }
  destruct (@linked_back m w _ _ _ _ EQ (follows_linked _ _ _ _ HfR) Hfree)
    as [Hback Hlast].
  destruct (previousCoordinates F ++ [meet]) as [| n0 joined] eqn:EJ;
    [destruct (previousCoordinates F); discriminate|].
  rewrite app_assoc, EJ. cbn [app finalPath finalPathFrom Lodash.tail].
  cbn [map] in EP. injection EP as E0 EP.
  rewrite E0.
  assert (Hl : linked m w (coordinates root)
                 (map coordinates
                      (joined ++ rev (previousCoordinates R)))).
  { rewrite map_app, EP, map_rev. apply linked_app.
    split; [apply follows_linked; exact HfF|].
    rewrite HlastF. exact Hback. }
  rewrite (finalPath_route _ _ _ _ Hl).
  rewrite map_app, EP, map_rev, last_app_default, HlastF, Hlast.
  reflexivity.
Qed.

Lemma customTwo_meets : forall fuel f t rf rt s,
  MeetInvariant m w root reverseRoot f t rf rt ->
  isFree m w (coordinates reverseRoot) = true ->
  customTwo_loop m w agent g fuel f t rf rt = Returns s ->
  match status s with
  | found =>
    route m w (coordinates root) (labels s) = Some (coordinates reverseRoot)
  | fail => path s = []
  end.
Proof.
  induction fuel as [| fuel IH]; intros f t rf rt s J Hfree H;
    [discriminate|].
  destruct f as [| n f']; [injection H as <-; reflexivity|].
  destruct rf as [| rn rf']; [injection H as <-; reflexivity|].
  cbn [customTwo_loop JsArray.shift] in H.
  destruct (existsb (sameCoordinates n) rt).
  - destruct (find (sameCoordinates n) t) as [F|] eqn:EF; [|discriminate].
    destruct (find (sameCoordinates n) rt) as [R|] eqn:ER; [|discriminate].
    injection H as <-. cbn [status]. unfold labels. cbn [path].
    eapply meet_route; [exact (mi_forward J) | exact (mi_backward J)
                        | exact Hfree | exact EF | exact ER].
  - destruct (existsb (sameCoordinates rn) t).
    + destruct (find (sameCoordinates rn) t) as [F|] eqn:EF; [|discriminate].
      destruct (find (sameCoordinates rn) rt) as [R|] eqn:ER; [|discriminate].
      injection H as <-. cbn [status]. unfold labels. cbn [path].
      eapply meet_route; [exact (mi_forward J) | exact (mi_backward J)
                          | exact Hfree | exact EF | exact ER].
    + eapply IH; [| exact Hfree | exact H]. apply meet_step. exact J.
Qed.

End MeetProofs.

(** The bidirectional search, towards a goal on a free cell: when it answers
    [found], the labels of the stitched path, followed from the starting
    cell, are legal moves through free cells that end on the goal, so each
    of them is one of the four move labels and none is the label for two
    equal or distant cells; when it answers [fail] the path is empty. *)
Theorem customTwo_path_is_route : forall problem startNode goal s,
  isFree (mazeSize problem) (walls problem) goal = true ->
  findSolution problem startNode goal "CUS2" = Returns s ->
  match status s with
  | found =>
    route (mazeSize problem) (walls problem) startNode (labels s) = Some goal
    /\ Forall (fun label => In label moveLabels) (labels s)
  | fail => path s = []
  end.
Proof.
  intros problem startNode goal s Hfree H.
  unfold findSolution in H.
  cbn [selectAlgorithm ownProperty algorithmMap String.eqb Ascii.eqb
                       Bool.eqb] in H.
  unfold customTwo in H.
  assert (J : MeetInvariant (mazeSize problem) (walls problem)
                (getInitialNode startNode goal)
                (getInitialNode goal (agentLocation problem))
                [getInitialNode startNode goal]
                [getInitialNode startNode goal]
                [getInitialNode goal (agentLocation problem)]
                [getInitialNode goal (agentLocation problem)]).
  { constructor; try apply incl_refl;
      intros n [<- | []]; exists []; split; [reflexivity | exact I
                                             | reflexivity | exact I]. }
  pose proof (@customTwo_meets _ _ _ _ _ _ _ _ _ _ _ _ J Hfree H) as HM.
  cbn [coordinates getInitialNode] in HM.
  destruct (status s); [|exact HM].
  split; [exact HM | eapply route_moves; exact HM].
Qed.

Lemma customTwo_path_is_route_witness :
  route (mazeSize Tiny.problem) (walls Tiny.problem) Tiny.start
        ["right; "] = Some Tiny.goal
  /\ Forall (fun label => In label moveLabels) ["right; "].
Proof.
  apply (customTwo_path_is_route Tiny.problem Tiny.start Tiny.goal
           (s := {| status := found; path := [labelOnly "right; "];
                    searchTree := [Tiny.root; Tiny.right;
                                   getInitialNode Tiny.goal Tiny.start;
                                   afterReverse []
                                     (nth 0 (probeCoordinates Tiny.goal
                                        [getInitialNode Tiny.goal Tiny.start]
                                        (mazeSize Tiny.problem) Tiny.start []
                                        [getInitialNode Tiny.goal Tiny.start])
                                        Tiny.root)] |})).
  - reflexivity.
  - vm_compute. reflexivity.
Defined.
